(** * fast-memo: the memoization cache of [src/memoize.ts]

    A shallow embedding of [memoize] and of the function it returns, with
    its [clear] and [stats] methods.

    How the program is modelled.

    - JavaScript values are the inductive [jsval]; an object is a reference
      compared by identity, a [Promise] is a handle into a table of settled
      promises (a handle that is not in the table is still pending).
    - Numbers are integers ([Z]): [Date.now()] counts whole milliseconds,
      and [ttl] and [errorTTL] are taken to be whole numbers of milliseconds.
    - [Date.now()] is an input of each operation.  A call of the wrapped
      function reads the clock once to test expiry (line 46) and once more,
      after the underlying function has returned, to stamp the new entry
      (lines 69, 78, 105); the two readings are the parameters [now] and
      [now'] of [memoized].
    - The underlying function [fn] is arbitrary code.  What it does at one
      invocation (throw, return a value, return a promise) is the parameter
      [r] of [memoized]; the argument lists it was invoked with are logged
      in the field [calls] of the world.  [fn] and the key generator are
      taken not to touch the cache themselves.
    - [promise.then(f).catch(g)] registers two reactions.  A reaction runs
      later, as a job of its own ([react]), once its source promise has
      settled; it settles its target promise.  A promise that the
      underlying function returns already settled is a pending one that
      the environment settles ([settle]) before any job runs: no code of
      the cache runs in between. *)

From Stdlib Require Import ZArith List String Bool Arith Lia DecimalString.
Import ListNotations.
Open Scope Z_scope.

(** ** Values *)

(** A promise is either one handed out by the environment (the underlying
    function) or one made by [then]/[catch] inside [memoized]. *)
Inductive promise : Type :=
| External (n : nat)
| Chained (n : nat).

Inductive jsval : Type :=
| JUndefined
| JNull
| JBool (b : bool)
| JNum (n : Z)
| JStr (s : string)
| JObj (addr : nat)
| JPromise (p : promise).

(** JavaScript's ToBoolean. *)
Definition truthy (v : jsval) : bool :=
  match v with
  | JUndefined | JNull => false
  | JBool b => b
  | JNum n => negb (n =? 0)
  | JStr s => negb (String.eqb s EmptyString)
  | JObj _ | JPromise _ => true
  end.

(** [result instanceof Promise] *)
Definition instanceof_Promise (v : jsval) : option promise :=
  match v with
  | JPromise p => Some p
  | _ => None
  end.

(** The outcome of evaluating a piece of JavaScript: a value, or a thrown
    exception. *)
Inductive completion (A : Type) : Type :=
| Normal (a : A)
| Throw (e : jsval).
Arguments Normal {A} a.
Arguments Throw {A} e.

Definition promise_eqb (p q : promise) : bool :=
  match p, q with
  | External a, External b => Nat.eqb a b
  | Chained a, Chained b => Nat.eqb a b
  | _, _ => false
  end.

(** ** The [Map] of the runtime, in insertion order *)

Module JsMap.

Definition t (V : Type) : Type := list (string * V).

Definition empty {V : Type} : t V := [].

Fixpoint get {V : Type} (k : string) (m : t V) : option V :=
  match m with
  | [] => None
  | (k', v) :: m' => if String.eqb k k' then Some v else get k m'
  end.

(** [set] on a key that is present replaces the value where it stands;
    a new key goes to the end. *)
Fixpoint set {V : Type} (k : string) (v : V) (m : t V) : t V :=
  match m with
  | [] => [(k, v)]
  | (k', v') :: m' =>
      if String.eqb k k' then (k, v) :: m' else (k', v') :: set k v m'
  end.

Definition delete {V : Type} (k : string) (m : t V) : t V :=
  filter (fun kv => negb (String.eqb k (fst kv))) m.

Definition clear {V : Type} (m : t V) : t V := [].

Definition size {V : Type} (m : t V) : nat := List.length m.

Definition keys {V : Type} (m : t V) : list string := map fst m.

End JsMap.

(** ** Data model (lines 4-22) *)

Record MemoizeOptions : Type := {
  opt_ttl : option Z;
  opt_keyGenerator : option (list jsval -> completion string);
  opt_cacheErrors : option bool;
  opt_errorTTL : option Z
}.

Record CacheEntry : Type := {
  value : jsval;
  expiresAt : Z;
  isError : option bool
}.

(** The four constants that [memoize] destructures out of its options
    (lines 37-42). *)
Record Settings : Type := {
  ttl : Z;
  keyGenerator : list jsval -> completion string;
  cacheErrors : bool;
  errorTTL : Z
}.

(** [cached.isError] in a condition: an absent flag is falsy. *)
Definition flag_set (f : option bool) : bool :=
  match f with
  | Some b => b
  | None => false
  end.

(** ** Promises and their reactions *)

Inductive settlement : Type :=
| Fulfilled (v : jsval)
| Rejected (e : jsval).

(** The two callbacks of lines 84-102; each closes over the key. *)
Inductive handler : Type :=
| OnFulfilled (key : string)
| OnRejected (key : string).

(** [source.then(h)] or [source.catch(h)], whose result is the promise
    [Chained target]. *)
Record reaction : Type := {
  source : promise;
  job : handler;
  target : nat
}.

Record World : Type := {
  cache : JsMap.t CacheEntry;
  settled : list (promise * settlement);
  reactions : list reaction;
  next : nat;
  calls : list (list jsval)
}.

Definition outcome_of (p : promise) (tbl : list (promise * settlement))
  : option settlement :=
  match find (fun ps => promise_eqb p (fst ps)) tbl with
  | Some ps => Some (snd ps)
  | None => None
  end.

(** A promise settles once; settling it again changes nothing. *)
Definition settle_promise (p : promise) (o : settlement)
  (tbl : list (promise * settlement)) : list (promise * settlement) :=
  match outcome_of p tbl with
  | Some _ => tbl
  | None => (p, o) :: tbl
  end.

Definition with_cache (c : JsMap.t CacheEntry) (w : World) : World :=
  {| cache := c; settled := settled w; reactions := reactions w;
     next := next w; calls := calls w |}.

(** ** The default key generator (lines 24-31) *)

Section Runtime.

(** [JSON.stringify] on an array and [String] on a value belong to the
    runtime; either can throw. *)
Variable JSON_stringify : list jsval -> completion string.
Variable String_ : jsval -> completion string.

Fixpoint map_String (args : list jsval) : completion (list string) :=
  match args with
  | [] => Normal []
  | a :: rest =>
      match String_ a with
      | Throw e => Throw e
      | Normal s =>
          match map_String rest with
          | Throw e => Throw e
          | Normal ss => Normal (s :: ss)
          end
      end
  end.

Definition defaultKeyGen (args : list jsval) : completion string :=
  match JSON_stringify args with
  | Normal s => Normal s
  | Throw _ =>
      match map_String args with
      | Throw e => Throw e
      | Normal ss => Normal (String.concat "|" ss)
      end
  end.

(** [memoize] up to the creation of the cache: the options with their
    defaults (lines 37-42). *)
Definition memoize_settings (options : MemoizeOptions) : Settings :=
  {| ttl := match opt_ttl options with Some t => t | None => 5 * 60 * 1000 end;
     keyGenerator := match opt_keyGenerator options with
                     | Some g => g
                     | None => defaultKeyGen
                     end;
     cacheErrors := match opt_cacheErrors options with
                    | Some b => b
                    | None => false
                    end;
     errorTTL := match opt_errorTTL options with
                 | Some t => t
                 | None => 30 * 1000
                 end |}.

End Runtime.

(** [new Map()] of line 43, no promise settled, nothing registered, the
    underlying function not yet invoked. *)
Definition fresh_world : World :=
  {| cache := JsMap.empty; settled := []; reactions := [];
     next := 0%nat; calls := [] |}.

(** ** The wrapped function (lines 45-108) *)

Section Dispatcher.

Variable cfg : Settings.

(** Lines 45-51.  The cache is passed in and handed back. *)
Definition purgeIfExpired (now : Z) (key : string) (entry : CacheEntry)
  (c : JsMap.t CacheEntry) : JsMap.t CacheEntry * bool :=
  if now >? expiresAt entry then (JsMap.delete key c, true) else (c, false).

(** Lines 60-107: the underlying function is invoked with [args] and
    does [r]; [now'] is the clock once it has returned. *)
Definition invoke (now' : Z) (args : list jsval) (key : string)
  (r : completion jsval) (w : World) : World * completion jsval :=
  let called := args :: calls w in
  match r with
  | Throw err =>
      let c := if cacheErrors cfg
               then JsMap.set key
                      {| value := err; expiresAt := now' + errorTTL cfg;
                         isError := Some true |} (cache w)
               else cache w in
      ({| cache := c; settled := settled w; reactions := reactions w;
          next := next w; calls := called |}, Throw err)
  | Normal result =>
      match instanceof_Promise result with
      | None =>
          ({| cache := JsMap.set key
                         {| value := result; expiresAt := now' + ttl cfg;
                            isError := None |} (cache w);
              settled := settled w; reactions := reactions w;
              next := next w; calls := called |}, Normal result)
      | Some p =>
          let p1 := next w in
          let p2 := S (next w) in
          let promise := JPromise (Chained p2) in
          ({| cache := JsMap.set key
                         {| value := promise; expiresAt := now' + ttl cfg;
                            isError := None |} (cache w);
              settled := settled w;
              reactions := reactions w ++
                [ {| source := p; job := OnFulfilled key; target := p1 |};
                  {| source := Chained p1; job := OnRejected key;
                     target := p2 |} ];
              next := S (S (next w)); calls := called |}, Normal promise)
      end
  end.

(** Lines 53-108. *)
Definition memoized (now now' : Z) (args : list jsval)
  (r : completion jsval) (w : World) : World * completion jsval :=
  match keyGenerator cfg args with
  | Throw e => (w, Throw e)
  | Normal key =>
      match JsMap.get key (cache w) with
      | None => invoke now' args key r w
      | Some cached =>
          let (c, purged) := purgeIfExpired now key cached (cache w) in
          if purged then invoke now' args key r (with_cache c w)
          else if flag_set (isError cached) then (w, Throw (value cached))
          else (w, Normal (value cached))
      end
  end.

(** The callback given to [then] (lines 84-90). *)
Definition on_fulfilled (now : Z) (key : string) (val : jsval)
  (c : JsMap.t CacheEntry) : JsMap.t CacheEntry * completion jsval :=
  (JsMap.set key {| value := val; expiresAt := now + ttl cfg;
                    isError := None |} c, Normal val).

(** The callback given to [catch] (lines 91-102). *)
Definition on_rejected (now : Z) (key : string) (err : jsval)
  (c : JsMap.t CacheEntry) : JsMap.t CacheEntry * completion jsval :=
  (if cacheErrors cfg
   then JsMap.set key {| value := err; expiresAt := now + errorTTL cfg;
                         isError := Some true |} c
   else JsMap.delete key c, Throw err).

(** What a reaction does once its source has settled with [o]: [then]
    has no rejection handler and [catch] no fulfilment handler, so the
    other settlement passes through. *)
Definition run_handler (now : Z) (h : handler) (o : settlement)
  (c : JsMap.t CacheEntry) : JsMap.t CacheEntry * completion jsval :=
  match h, o with
  | OnFulfilled key, Fulfilled val => on_fulfilled now key val c
  | OnFulfilled _, Rejected e => (c, Throw e)
  | OnRejected _, Fulfilled v => (c, Normal v)
  | OnRejected key, Rejected err => on_rejected now key err c
  end.

Definition settlement_of (r : completion jsval) : settlement :=
  match r with
  | Normal v => Fulfilled v
  | Throw e => Rejected e
  end.

(** The job of the reaction whose target is [Chained q], run at clock
    [now].  Nothing happens while its source is pending. *)
Definition react (q : nat) (now : Z) (w : World) : World :=
  match find (fun rx => Nat.eqb (target rx) q) (reactions w) with
  | None => w
  | Some rx =>
      match outcome_of (source rx) (settled w) with
      | None => w
      | Some o =>
          let (c, r) := run_handler now (job rx) o (cache w) in
          {| cache := c;
             settled := settle_promise (Chained q) (settlement_of r)
                          (settled w);
             reactions := filter (fun rx' => negb (Nat.eqb (target rx') q))
                            (reactions w);
             next := next w; calls := calls w |}
      end
  end.

(** The environment settles the promise [External n]. *)
Definition settle (n : nat) (o : settlement) (w : World) : World :=
  {| cache := cache w;
     settled := settle_promise (External n) o (settled w);
     reactions := reactions w; next := next w; calls := calls w |}.

(** Lines 111-119.  [key] absent stands for [undefined] and [null]; an
    array, even an empty one, is truthy. *)
Definition clear (key : option (list jsval)) (w : World)
  : World * completion unit :=
  match key with
  | None => (with_cache (JsMap.clear (cache w)) w, Normal tt)
  | Some args =>
      match keyGenerator cfg args with
      | Throw e => (w, Throw e)
      | Normal cacheKey =>
          (with_cache (JsMap.delete cacheKey (cache w)) w, Normal tt)
      end
  end.

(** Lines 120-123. *)
Definition stats (w : World) : nat * list string :=
  (JsMap.size (cache w), JsMap.keys (cache w)).

(** Several calls in a row, with nothing in between; each comes with its
    two clock readings and with what the underlying function would do. *)
Fixpoint call_all (args : list jsval)
  (cs : list (Z * Z * completion jsval)) (w : World)
  : World * list (completion jsval) :=
  match cs with
  | [] => (w, [])
  | (now, now', r) :: rest =>
      let (w1, res) := memoized now now' args r w in
      let (w2, ress) := call_all args rest w1 in
      (w2, res :: ress)
  end.

End Dispatcher.

(** [memoize] (lines 33-127): the settings and the empty cache that the
    returned closure captures. *)
Definition memoize (JSON_stringify : list jsval -> completion string)
  (String_ : jsval -> completion string) (options : MemoizeOptions)
  : Settings * World :=
  (memoize_settings JSON_stringify String_ options, fresh_world).

(** ** Vocabulary of the statements *)

(** The entry under [key] would be served at clock [now]: it is there and
    [now > expiresAt] does not hold. *)
Definition live (now : Z) (key : string) (c : JsMap.t CacheEntry) : bool :=
  match JsMap.get key c with
  | None => false
  | Some entry => negb (now >? expiresAt entry)
  end.

(** What a served entry gives its caller (lines 57-58). *)
Definition served (entry : CacheEntry) : completion jsval :=
  if flag_set (isError entry) then Throw (value entry)
  else Normal (value entry).

(** What an invocation of the underlying function that did [r] hands back
    to the call that made it: the exception, the value, or the promise
    that [memoized] chains on the one returned (line 107). *)
Definition handed_back (w : World) (r : completion jsval)
  : completion jsval :=
  match r with
  | Throw e => Throw e
  | Normal v =>
      match instanceof_Promise v with
      | Some _ => Normal (JPromise (Chained (S (next w))))
      | None => Normal v
      end
  end.

(** Identifiers of chained promises are handed out in order: none at or
    above [next] is in use yet. *)
Definition chained_below (b : nat) (p : promise) : Prop :=
  match p with
  | Chained n => (n < b)%nat
  | External _ => True
  end.

Definition well_formed (w : World) : Prop :=
  Forall (fun rx => (target rx < next w)%nat) (reactions w) /\
  Forall (fun ps => chained_below (next w) (fst ps)) (settled w).

(** An asynchronous computation from its start to its end: the call that
    misses and receives the promise [External n], the settlement of that
    promise with [o], the [then] job at clock [t1] and the [catch] job at
    clock [t2]. *)
Definition async_round (cfg : Settings) (now now' : Z) (args : list jsval)
  (n : nat) (o : settlement) (t1 t2 : Z) (w : World) : World :=
  let w1 := fst (memoized cfg now now' args
                   (Normal (JPromise (External n))) w) in
  react cfg (S (next w)) t2 (react cfg (next w) t1 (settle n o w1)).

(** ** Settings used in the examples *)

(** A custom key generator: one string argument is its own key, anything
    else makes the generator throw. *)
Definition name_key (args : list jsval) : completion string :=
  match args with
  | [JStr s] => Normal s
  | _ => Throw (JStr "bad arguments")
  end.

Definition demo (errors : bool) : Settings :=
  {| ttl := 100; keyGenerator := name_key; cacheErrors := errors;
     errorTTL := 50 |}.

Definition boom : jsval := JObj 7.

(** A cache with an entry for ["a"] and one for ["b"], both stamped 100. *)
Definition two_entries : World :=
  fst (memoized (demo false) 0 0 [JStr "b"] (Normal (JNum 2))
         (fst (memoized (demo false) 0 0 [JStr "a"] (Normal (JNum 1))
                 fresh_world))).

(** ** Runs of several calls *)

(** Calls in a row, each with its own arguments, its two clock readings
    and what the underlying function would do. *)
Fixpoint call_each (cfg : Settings)
  (cs : list (Z * Z * list jsval * completion jsval)) (w : World)
  : World * list (completion jsval) :=
  match cs with
  | [] => (w, [])
  | (now, now', args, r) :: rest =>
      let (w1, res) := memoized cfg now now' args r w in
      let (w2, ress) := call_each cfg rest w1 in
      (w2, res :: ress)
  end.

(** The two reactions that [invoke] registers for the key [key] on the
    promise [p], the first with target [q]. *)
Definition then_reaction (p : promise) (key : string) (q : nat) : reaction :=
  {| source := p; job := OnFulfilled key; target := q |}.

Definition catch_reaction (key : string) (q : nat) : reaction :=
  {| source := Chained q; job := OnRejected key; target := S q |}.

(** The same settings with another [errorTTL]. *)
Definition with_errorTTL (e : Z) (cfg : Settings) : Settings :=
  {| ttl := ttl cfg; keyGenerator := keyGenerator cfg;
     cacheErrors := cacheErrors cfg; errorTTL := e |}.

(** ** Operations in any order *)

(** What can happen to one wrapped function: a call, the settlement of a
    promise by the environment, the job of a registered reaction, and
    [clear]. *)
Inductive event : Type :=
| ECall (now now' : Z) (args : list jsval) (r : completion jsval)
| ESettle (n : nat) (o : settlement)
| EReact (q : nat) (now : Z)
| EClear (k : option (list jsval)).

Definition step (cfg : Settings) (ev : event) (w : World) : World :=
  match ev with
  | ECall now now' args r => fst (memoized cfg now now' args r w)
  | ESettle n o => settle n o w
  | EReact q now => react cfg q now w
  | EClear k => fst (clear cfg k w)
  end.

Fixpoint run (cfg : Settings) (evs : list event) (w : World) : World :=
  match evs with
  | [] => w
  | ev :: rest => run cfg rest (step cfg ev w)
  end.

(** The key generator gives [key] for [args]. *)
Definition under (cfg : Settings) (key : string) (args : list jsval) : bool :=
  match keyGenerator cfg args with
  | Normal k => String.eqb k key
  | Throw _ => false
  end.

(** What the calls under [key] among [evs] were given, in order. *)
Fixpoint answers (cfg : Settings) (key : string) (evs : list event)
  (w : World) : list (completion jsval) :=
  match evs with
  | [] => []
  | ev :: rest =>
      match ev with
      | ECall now now' args r =>
          if under cfg key args
          then snd (memoized cfg now now' args r w)
               :: answers cfg key rest (step cfg ev w)
          else answers cfg key rest (step cfg ev w)
      | _ => answers cfg key rest (step cfg ev w)
      end
  end.

Definition handler_key (h : handler) : string :=
  match h with
  | OnFulfilled key => key
  | OnRejected key => key
  end.

(** The event leaves the entry of [key], which expires at [exp], in
    place: it is not a call under [key] at a clock after [exp], not the
    job of a reaction for [key] whose source has settled, not [clear()]
    and not [clear] of an argument list under [key]. *)
Definition leaves (cfg : Settings) (key : string) (exp : Z) (ev : event)
  (w : World) : bool :=
  match ev with
  | ECall now _ args _ => if under cfg key args then now <=? exp else true
  | ESettle _ _ => true
  | EReact q _ =>
      match find (fun rx => Nat.eqb (target rx) q) (reactions w) with
      | None => true
      | Some rx =>
          match outcome_of (source rx) (settled w) with
          | None => true
          | Some _ => negb (String.eqb (handler_key (job rx)) key)
          end
      end
  | EClear None => false
  | EClear (Some args) => negb (under cfg key args)
  end.

Fixpoint undisturbed (cfg : Settings) (key : string) (exp : Z)
  (evs : list event) (w : World) : bool :=
  match evs with
  | [] => true
  | ev :: rest =>
      leaves cfg key exp ev w && undisturbed cfg key exp rest (step cfg ev w)
  end.

(** The two reactions of the computation started for [key] on the
    promise [p] are registered, the older reactions before them and the
    newer after, and neither of its two chained promises has settled. *)
Definition awaiting (p : promise) (key : string) (q : nat) (w : World)
  : Prop :=
  (exists rs rs',
     reactions w = rs ++ then_reaction p key q :: catch_reaction key q :: rs'
     /\ Forall (fun rx => (target rx < q)%nat) rs
     /\ Forall (fun rx => (S q < target rx)%nat) rs') /\
  outcome_of (Chained q) (settled w) = None /\
  outcome_of (Chained (S q)) (settled w) = None /\
  (S q < next w)%nat.

(** ** More settings for the examples *)

(** A negative [ttl]. *)
Definition hasty : Settings :=
  {| ttl := -1; keyGenerator := name_key; cacheErrors := false;
     errorTTL := 50 |}.

(** A stand-in for the runtime in the examples, with only what they
    need: [JSON.stringify] throws when an argument is an object (as it
    does on a cyclic one) and gives some string otherwise; [String]
    converts a string to itself and never throws. *)
Definition sample_String (v : jsval) : completion string :=
  match v with
  | JUndefined => Normal "undefined"%string
  | JNull => Normal "null"%string
  | JBool true => Normal "true"%string
  | JBool false => Normal "false"%string
  | JNum n => Normal (NilZero.string_of_int (Z.to_int n))
  | JStr s => Normal s
  | JObj _ => Normal "[object Object]"%string
  | JPromise _ => Normal "[object Promise]"%string
  end.

Definition sample_stringify (args : list jsval) : completion string :=
  if existsb (fun v => match v with JObj _ => true | _ => false end) args
  then Throw (JStr "TypeError: cyclic object value")
  else match map_String sample_String args with
       | Normal ss => Normal (String.concat "," ss)
       | Throw e => Throw e
       end.

(** * Properties *)

(** ** The map *)

Section MapFacts.

Context {V : Type}.
Implicit Types (k : string) (v : V) (m : JsMap.t V).

Lemma get_set_same k v m : JsMap.get k (JsMap.set k v m) = Some v.
Proof.
  induction m as [|[k' v'] m IH]; simpl.
  - now rewrite String.eqb_refl.
  - destruct (String.eqb k k') eqn:E; simpl.
    + now rewrite String.eqb_refl.
    + now rewrite E.
Qed.

Lemma get_set_other k k' v m :
  k <> k' -> JsMap.get k' (JsMap.set k v m) = JsMap.get k' m.
Proof.
  intros Hne. induction m as [|[k0 v0] m IH]; simpl.
  - destruct (String.eqb k' k) eqn:E; [|reflexivity].
    apply String.eqb_eq in E. congruence.
  - destruct (String.eqb k k0) eqn:E; simpl.
    + apply String.eqb_eq in E. subst k0.
      destruct (String.eqb k' k) eqn:E'; [|reflexivity].
      apply String.eqb_eq in E'. congruence.
    + now rewrite IH.
Qed.

Lemma get_delete_same k m : JsMap.get k (JsMap.delete k m) = None.
Proof.
  unfold JsMap.delete.
  induction m as [|[k' v'] m IH]; simpl; [reflexivity|].
  destruct (String.eqb k k') eqn:E; simpl; [exact IH|].
  now rewrite E.
Qed.

Lemma get_delete_other k k' m :
  k <> k' -> JsMap.get k' (JsMap.delete k m) = JsMap.get k' m.
Proof.
  intros Hne. unfold JsMap.delete.
  induction m as [|[k0 v0] m IH]; simpl; [reflexivity|].
  destruct (String.eqb k k0) eqn:E; simpl.
  - apply String.eqb_eq in E. subst k0.
    destruct (String.eqb k' k) eqn:E'; [|exact IH].
    apply String.eqb_eq in E'. congruence.
  - now rewrite IH.
Qed.

Lemma delete_absent k m : JsMap.get k m = None -> JsMap.delete k m = m.
Proof.
  unfold JsMap.delete.
  induction m as [|[k' v'] m IH]; simpl; [reflexivity|].
  destruct (String.eqb k k') eqn:E; [discriminate|].
  intros H. simpl. now rewrite IH.
Qed.

Lemma keys_delete k m :
  JsMap.keys (JsMap.delete k m)
  = filter (fun k' => negb (String.eqb k k')) (JsMap.keys m).
Proof.
  unfold JsMap.delete, JsMap.keys.
  induction m as [|[k' v'] m IH]; simpl; [reflexivity|].
  destruct (String.eqb k k'); simpl; now rewrite IH.
Qed.

Lemma size_delete k m : (JsMap.size (JsMap.delete k m) <= JsMap.size m)%nat.
Proof. apply filter_length_le. Qed.

End MapFacts.

(** ** The options *)

(** With no option given: five minutes, the default key generator, errors
    not cached, thirty seconds; and the cache starts empty. *)
Lemma memoize_defaults JSON_stringify String_ :
  let made := memoize JSON_stringify String_
                {| opt_ttl := None; opt_keyGenerator := None;
                   opt_cacheErrors := None; opt_errorTTL := None |} in
  ttl (fst made) = 300000 /\
  keyGenerator (fst made) = defaultKeyGen JSON_stringify String_ /\
  cacheErrors (fst made) = false /\
  errorTTL (fst made) = 30000 /\
  cache (snd made) = [] /\
  stats (snd made) = (0%nat, []).
Proof. repeat split. Qed.

(** The default key generator falls back on [String] and ["|"] when
    [JSON.stringify] throws, and throws itself when [String] does. *)
Lemma defaultKeyGen_fallback JSON_stringify String_ args e :
  JSON_stringify args = Throw e ->
  defaultKeyGen JSON_stringify String_ args
  = match map_String String_ args with
    | Normal ss => Normal (String.concat "|" ss)
    | Throw e' => Throw e'
    end.
Proof.
  intros H. unfold defaultKeyGen. rewrite H.
  now destruct (map_String String_ args).
Qed.

(** ** One call *)

Section CallFacts.

Variable cfg : Settings.
Implicit Types (w : World) (args : list jsval) (key : string).

Lemma with_cache_same w : with_cache (cache w) w = w.
Proof. now destruct w. Qed.

(** A call that finds nothing to serve deletes what may be left under
    the key and invokes the underlying function. *)
Lemma memoized_miss now now' args key r w :
  keyGenerator cfg args = Normal key ->
  live now key (cache w) = false ->
  memoized cfg now now' args r w
  = invoke cfg now' args key r
      (with_cache (JsMap.delete key (cache w)) w).
Proof.
  intros Hk Hl. unfold memoized, live in *. rewrite Hk.
  destruct (JsMap.get key (cache w)) as [entry|] eqn:G.
  - unfold purgeIfExpired.
    destruct (now >? expiresAt entry); [reflexivity|discriminate].
  - now rewrite (delete_absent _ _ G), with_cache_same.
Qed.

(** A call that finds a live entry serves it and changes nothing. *)
Lemma memoized_hit now now' args key entry r w :
  keyGenerator cfg args = Normal key ->
  JsMap.get key (cache w) = Some entry ->
  now <= expiresAt entry ->
  memoized cfg now now' args r w = (w, served entry).
Proof.
  intros Hk G Hle. unfold memoized, purgeIfExpired, served.
  rewrite Hk, G.
  destruct (now >? expiresAt entry) eqn:E; [lia|].
  now destruct (flag_set (isError entry)).
Qed.

Lemma invoke_calls now' args key r w :
  calls (fst (invoke cfg now' args key r w)) = args :: calls w.
Proof.
  unfold invoke. destruct r as [v|e]; [|reflexivity].
  now destruct (instanceof_Promise v).
Qed.

(** A call invokes the underlying function once or not at all. *)
Lemma memoized_calls now now' args r w :
  calls (fst (memoized cfg now now' args r w)) = calls w \/
  calls (fst (memoized cfg now now' args r w)) = args :: calls w.
Proof.
  unfold memoized.
  destruct (keyGenerator cfg args) as [key|e]; [|now left].
  destruct (JsMap.get key (cache w)) as [entry|].
  - unfold purgeIfExpired. destruct (now >? expiresAt entry).
    + right. now rewrite invoke_calls.
    + left. now destruct (flag_set (isError entry)).
  - right. apply invoke_calls.
Qed.

Lemma invoke_result now' args key r w :
  snd (invoke cfg now' args key r w) = handed_back w r.
Proof.
  unfold invoke, handed_back. destruct r as [v|e]; [|reflexivity].
  now destruct (instanceof_Promise v).
Qed.

(** After an invocation that returned, the key holds what was handed
    back, stamped [now' + ttl]. *)
Lemma invoke_entry now' args key v w :
  JsMap.get key (cache (fst (invoke cfg now' args key (Normal v) w)))
  = match handed_back w (Normal v) with
    | Normal x => Some {| value := x; expiresAt := now' + ttl cfg;
                          isError := None |}
    | Throw _ => None
    end.
Proof.
  unfold invoke, handed_back.
  destruct (instanceof_Promise v); simpl; apply get_set_same.
Qed.

End CallFacts.

(** ** Promises *)

Lemma find_app_skip {A : Type} (f : A -> bool) (l l' : list A) :
  Forall (fun x => f x = false) l -> find f (l ++ l') = find f l'.
Proof.
  induction 1 as [|x l Hx _ IH]; simpl; [reflexivity|].
  now rewrite Hx.
Qed.

Lemma filter_keeps {A : Type} (f : A -> bool) (l : list A) :
  Forall (fun x => f x = true) l -> filter f l = l.
Proof.
  induction 1 as [|x l Hx _ IH]; simpl; [reflexivity|].
  now rewrite Hx, IH.
Qed.

Lemma promise_eqb_eq p q : promise_eqb p q = true <-> p = q.
Proof.
  destruct p, q; simpl; rewrite ?Nat.eqb_eq; split;
    congruence || discriminate.
Qed.

Lemma promise_eqb_refl p : promise_eqb p p = true.
Proof. now apply promise_eqb_eq. Qed.

Lemma outcome_settle_new p o tbl :
  outcome_of p tbl = None -> outcome_of p (settle_promise p o tbl) = Some o.
Proof.
  intros H. unfold settle_promise. rewrite H.
  unfold outcome_of. simpl. now rewrite promise_eqb_refl.
Qed.

Lemma outcome_settle_other p p' o tbl :
  p <> p' -> outcome_of p' (settle_promise p o tbl) = outcome_of p' tbl.
Proof.
  intros Hne. unfold settle_promise.
  destruct (outcome_of p tbl); [reflexivity|].
  unfold outcome_of at 1. simpl.
  destruct (promise_eqb p' p) eqn:E; [|reflexivity].
  apply promise_eqb_eq in E. congruence.
Qed.

Lemma outcome_unused q b tbl :
  Forall (fun ps => chained_below b (fst ps)) tbl -> (b <= q)%nat ->
  outcome_of (Chained q) tbl = None.
Proof.
  intros H Hq. unfold outcome_of.
  induction H as [|[p o] tbl Hp _ IH]; cbn [find fst]; [reflexivity|].
  destruct (promise_eqb (Chained q) p) eqn:E; [|exact IH].
  apply promise_eqb_eq in E. subst p. simpl in Hp. lia.
Qed.

Lemma target_unused w q :
  well_formed w -> (next w <= q)%nat ->
  Forall (fun rx => Nat.eqb (target rx) q = false) (reactions w).
Proof.
  intros [H _] Hq. eapply Forall_impl; [|exact H].
  intros rx Hrx. simpl in Hrx. apply Nat.eqb_neq. lia.
Qed.

Lemma targets_kept w q :
  well_formed w -> (next w <= q)%nat ->
  filter (fun rx => negb (Nat.eqb (target rx) q)) (reactions w) = reactions w.
Proof.
  intros Hwf Hq. apply filter_keeps.
  eapply Forall_impl; [|exact (target_unused w q Hwf Hq)].
  intros rx Hrx. simpl in Hrx. now rewrite Hrx.
Qed.

Lemma fresh_world_well_formed : well_formed fresh_world.
Proof. split; constructor. Qed.

(** ** A whole asynchronous computation *)

Section RoundFacts.

Variable cfg : Settings.

(** Whatever the two handlers do to the cache, the settlement reaches
    the end of the chain as it was. *)
Lemma handlers_pass t1 t2 key o c c' :
  settlement_of (snd (run_handler cfg t2 (OnRejected key)
    (settlement_of (snd (run_handler cfg t1 (OnFulfilled key) o c))) c'))
  = o.
Proof. now destruct o. Qed.

(** The job of a registered reaction whose source has settled. *)
Lemma react_runs q now w rx o :
  find (fun rx' => Nat.eqb (target rx') q) (reactions w) = Some rx ->
  outcome_of (source rx) (settled w) = Some o ->
  react cfg q now w
  = {| cache := fst (run_handler cfg now (job rx) o (cache w));
       settled := settle_promise (Chained q)
                    (settlement_of
                       (snd (run_handler cfg now (job rx) o (cache w))))
                    (settled w);
       reactions := filter (fun rx' => negb (Nat.eqb (target rx') q))
                      (reactions w);
       next := next w; calls := calls w |}.
Proof.
  intros Hf Ho. unfold react. rewrite Hf, Ho.
  now destruct (run_handler cfg now (job rx) o (cache w)).
Qed.

Lemma async_round_spec now now' args key n o t1 t2 w :
  well_formed w ->
  keyGenerator cfg args = Normal key ->
  live now key (cache w) = false ->
  outcome_of (External n) (settled w) = None ->
  let q := S (next w) in
  let c1 := JsMap.set key {| value := JPromise (Chained q);
                             expiresAt := now' + ttl cfg;
                             isError := None |}
              (JsMap.delete key (cache w)) in
  let h1 := run_handler cfg t1 (OnFulfilled key) o c1 in
  let h2 := run_handler cfg t2 (OnRejected key)
              (settlement_of (snd h1)) (fst h1) in
  let w4 := async_round cfg now now' args n o t1 t2 w in
  cache w4 = fst h2 /\
  outcome_of (Chained q) (settled w4) = Some o /\
  calls w4 = args :: calls w /\
  reactions w4 = reactions w.
Proof.
  intros Hwf Hk Hl Hn q c1 h1 h2 w4.
  pose proof (target_unused w (next w) Hwf (Nat.le_refl _)) as Hs1.
  pose proof (target_unused w q Hwf (Nat.le_succ_diag_r _)) as Hs2.
  pose proof (targets_kept w (next w) Hwf (Nat.le_refl _)) as Hk1.
  pose proof (targets_kept w q Hwf (Nat.le_succ_diag_r _)) as Hk2.
  set (rx1 := {| source := External n; job := OnFulfilled key;
                 target := next w |}).
  set (rx2 := {| source := Chained (next w); job := OnRejected key;
                 target := q |}).
  set (tbl2 := settle_promise (External n) o (settled w)).
  assert (Hu1 : outcome_of (Chained (next w)) tbl2 = None).
  { unfold tbl2. rewrite outcome_settle_other by discriminate.
    eapply outcome_unused; [apply Hwf|lia]. }
  set (tbl3 := settle_promise (Chained (next w)) (settlement_of (snd h1))
                 tbl2).
  assert (Hu2 : outcome_of (Chained q) tbl3 = None).
  { unfold tbl3, tbl2.
    rewrite !outcome_settle_other
      by (discriminate || (unfold q; intros E; injection E; lia)).
    eapply outcome_unused; [apply Hwf|unfold q; lia]. }
  (* the world after the call and the settlement *)
  set (w2 := {| cache := c1; settled := tbl2;
                reactions := reactions w ++ [rx1; rx2];
                next := S (S (next w)); calls := args :: calls w |}).
  assert (E2 : settle n o (fst (memoized cfg now now' args
                 (Normal (JPromise (External n))) w)) = w2).
  { rewrite (memoized_miss cfg now now' args key _ w Hk Hl). reflexivity. }
  (* the [then] job *)
  set (w3 := {| cache := fst h1; settled := tbl3;
                reactions := reactions w ++ [rx2];
                next := S (S (next w)); calls := args :: calls w |}).
  assert (E3 : react cfg (next w) t1 w2 = w3).
  { rewrite (react_runs (next w) t1 w2 rx1 o).
    - unfold w3, w2. cbn [cache settled reactions next calls job].
      fold h1. fold tbl3. f_equal.
      rewrite filter_app, Hk1. cbn [filter target rx1 rx2].
      rewrite Nat.eqb_refl.
      replace (Nat.eqb q (next w)) with false
        by (symmetry; apply Nat.eqb_neq; unfold q; lia).
      reflexivity.
    - unfold w2. cbn [reactions].
      rewrite (find_app_skip _ _ _ Hs1). cbn [find target rx1].
      now rewrite Nat.eqb_refl.
    - unfold w2. cbn [settled source rx1].
      unfold tbl2. now apply outcome_settle_new. }
  (* the [catch] job *)
  assert (E4 : react cfg q t2 w3
               = {| cache := fst h2;
                    settled := settle_promise (Chained q)
                                 (settlement_of (snd h2)) tbl3;
                    reactions := reactions w;
                    next := S (S (next w)); calls := args :: calls w |}).
  { rewrite (react_runs q t2 w3 rx2 (settlement_of (snd h1))).
    - unfold w3. cbn [cache settled reactions next calls job rx2].
      fold h2. f_equal.
      rewrite filter_app, Hk2. cbn [filter target rx2].
      rewrite Nat.eqb_refl. apply app_nil_r.
    - unfold w3. cbn [reactions].
      rewrite (find_app_skip _ _ _ Hs2). cbn [find target rx2].
      now rewrite Nat.eqb_refl.
    - unfold w3. cbn [settled source rx2].
      unfold tbl3. now apply outcome_settle_new. }
  subst w4. unfold async_round. fold q. rewrite E2, E3, E4.
  cbn [cache settled reactions calls].
  repeat split.
  rewrite (outcome_settle_new _ _ _ Hu2). f_equal.
  unfold h2, h1. apply handlers_pass.
Qed.

End RoundFacts.

(** ** The claims about one or two calls *)

Section Calls.

Variable cfg : Settings.
Implicit Types (w : World) (args : list jsval) (key : string).

Lemma invoke_other_key now' args key key' r w :
  key' <> key ->
  JsMap.get key (cache (fst (invoke cfg now' args key' r w)))
  = JsMap.get key (cache w).
Proof.
  intros Hne. unfold invoke. destruct r as [v|e].
  - destruct (instanceof_Promise v); simpl; now apply get_set_other.
  - simpl. destruct (cacheErrors cfg); [now apply get_set_other|reflexivity].
Qed.

(** A call under another key leaves the entry of [key] alone, whatever
    the clock says. *)
Lemma memoized_other_key now now' args' key key' r w :
  keyGenerator cfg args' = Normal key' ->
  key' <> key ->
  JsMap.get key (cache (fst (memoized cfg now now' args' r w)))
  = JsMap.get key (cache w).
Proof.
  intros Hk Hne.
  destruct (live now key' (cache w)) eqn:L.
  - unfold live in L.
    destruct (JsMap.get key' (cache w)) as [entry|] eqn:G; [|discriminate].
    rewrite (memoized_hit cfg now now' args' key' entry r w Hk G);
      [reflexivity|].
    destruct (now >? expiresAt entry) eqn:E; [discriminate|lia].
  - rewrite (memoized_miss cfg now now' args' key' r w Hk L).
    rewrite invoke_other_key by assumption. simpl.
    now apply get_delete_other.
Qed.

(** C9.  When the key generator throws, the call throws the same
    exception, the underlying function is not invoked and the world, the
    cache with it, is exactly what it was. *)
Theorem key_generator_failure_propagates now now' args r w e :
  keyGenerator cfg args = Throw e ->
  memoized cfg now now' args r w = (w, Throw e).
Proof. intros Hk. unfold memoized. now rewrite Hk. Qed.

(** C8.  [clear()] leaves an empty cache, for which [stats] reports size
    0 and no key.  [clear(args)] computes the key of [args] with the key
    generator and deletes that key: it is absent afterwards, every other
    argument list whose key differs finds what it found before, and the
    remaining keys keep their order. *)
Theorem clear_all_or_one args key w :
  keyGenerator cfg args = Normal key ->
  (cache (fst (clear cfg None w)) = [] /\
   stats (fst (clear cfg None w)) = (0%nat, [])) /\
  (let w' := fst (clear cfg (Some args) w) in
   JsMap.get key (cache w') = None /\
   (forall args' key',
      keyGenerator cfg args' = Normal key' -> key' <> key ->
      JsMap.get key' (cache w') = JsMap.get key' (cache w)) /\
   JsMap.keys (cache w')
   = filter (fun k => negb (String.eqb key k)) (JsMap.keys (cache w)) /\
   snd (clear cfg (Some args) w) = Normal tt).
Proof.
  intros Hk. split; [split; reflexivity|].
  unfold clear. rewrite Hk. cbn [fst snd with_cache cache].
  repeat split.
  - apply get_delete_same.
  - intros args' key' _ Hne. apply get_delete_other. congruence.
  - apply keys_delete.
Qed.

(** C3.  With an entry under the key of [args]: at a clock strictly
    after [expiresAt], [purgeIfExpired] deletes the entry and the call
    goes on to invoke the underlying function on the cache without it;
    at a clock equal to [expiresAt], and at any earlier one, the call
    serves the entry and changes nothing.  So the underlying function is
    left alone exactly when [now <= expiresAt].  Nothing but the lookup
    of this key purges: a call under another key leaves the entry where
    it is even when it has expired. *)
Theorem expiry_is_lazy_and_strict now now' args key entry r w :
  keyGenerator cfg args = Normal key ->
  JsMap.get key (cache w) = Some entry ->
  (expiresAt entry < now ->
     purgeIfExpired now key entry (cache w)
     = (JsMap.delete key (cache w), true) /\
     JsMap.get key (JsMap.delete key (cache w)) = None /\
     memoized cfg now now' args r w
     = invoke cfg now' args key r
         (with_cache (JsMap.delete key (cache w)) w) /\
     calls (fst (memoized cfg now now' args r w)) = args :: calls w) /\
  (now = expiresAt entry ->
     memoized cfg now now' args r w = (w, served entry)) /\
  (calls (fst (memoized cfg now now' args r w)) = calls w
     <-> now <= expiresAt entry) /\
  (forall args' key' r',
     keyGenerator cfg args' = Normal key' -> key' <> key ->
     JsMap.get key (cache (fst (memoized cfg now now' args' r' w)))
     = Some entry).
Proof.
  intros Hk G.
  assert (Hmiss : expiresAt entry < now ->
            memoized cfg now now' args r w
            = invoke cfg now' args key r
                (with_cache (JsMap.delete key (cache w)) w)).
  { intros Hlt. apply memoized_miss; [assumption|].
    unfold live. rewrite G.
    destruct (now >? expiresAt entry) eqn:E; [reflexivity|lia]. }
  split; [|split; [|split]].
  - intros Hlt. repeat split.
    + unfold purgeIfExpired.
      destruct (now >? expiresAt entry) eqn:E; [reflexivity|lia].
    + apply get_delete_same.
    + now apply Hmiss.
    + rewrite (Hmiss Hlt), invoke_calls. reflexivity.
  - intros ->. eapply memoized_hit; eauto. lia.
  - split.
    + intros Hc. destruct (Z.le_gt_cases now (expiresAt entry)) as [H|H];
        [assumption|].
      rewrite (Hmiss H), invoke_calls in Hc. simpl in Hc.
      exfalso. revert Hc. generalize (calls w). intros l Hc.
      apply (f_equal (@List.length _)) in Hc. simpl in Hc. lia.
    + intros Hle.
      now rewrite (memoized_hit cfg now now' args key entry r w Hk G Hle).
  - intros args' key' r' Hk' Hne.
    now rewrite (memoized_other_key now now' args' key key' r' w Hk' Hne).
Qed.

(** C10.  A synchronous result that is falsy -- [undefined], [null],
    [0], [false] or the empty string -- is stored like any other: the
    entry is there after the first call, and a second call with the same
    arguments no later than [ttl] after it returns the same value from
    the cache, the underlying function having been invoked once. *)
Theorem falsy_result_is_cached now1 now1' now2 now2' args key v r2 w :
  truthy v = false ->
  keyGenerator cfg args = Normal key ->
  live now1 key (cache w) = false ->
  now2 <= now1' + ttl cfg ->
  let first := memoized cfg now1 now1' args (Normal v) w in
  let second := memoized cfg now2 now2' args r2 (fst first) in
  In v [JUndefined; JNull; JNum 0; JBool false; JStr ""] /\
  snd first = Normal v /\
  JsMap.get key (cache (fst first))
  = Some {| value := v; expiresAt := now1' + ttl cfg; isError := None |} /\
  snd second = Normal v /\
  calls (fst second) = args :: calls w.
Proof.
  intros Hf Hk Hl Hle first second.
  assert (Hin : In v [JUndefined; JNull; JNum 0; JBool false; JStr ""]).
  { destruct v as [| |b|n|s| |]; simpl in *; try discriminate; auto.
    - destruct b; [discriminate|auto 6].
    - destruct (n =? 0) eqn:E; [|discriminate].
      apply Z.eqb_eq in E. subst. auto 6.
    - destruct s; [auto 6|discriminate]. }
  assert (Hnp : instanceof_Promise v = None)
    by (destruct v; simpl in *; congruence).
  assert (E1 : first = invoke cfg now1' args key (Normal v)
                 (with_cache (JsMap.delete key (cache w)) w))
    by (apply memoized_miss; assumption).
  set (w0 := with_cache (JsMap.delete key (cache w)) w) in *.
  pose proof (invoke_entry cfg now1' args key v w0) as He.
  pose proof (invoke_result cfg now1' args key (Normal v) w0) as Hr.
  rewrite <- E1 in He, Hr. unfold handed_back in He, Hr.
  rewrite Hnp in He, Hr.
  assert (E2 : second = (fst first, Normal v)).
  { unfold second.
    now rewrite (memoized_hit cfg now2 now2' args key _ r2 (fst first) Hk He). }
  rewrite E2. cbn [fst snd]. repeat split; try assumption.
  rewrite E1, invoke_calls. reflexivity.
Qed.

End Calls.

(** ** The claims about asynchronous computations *)

Section Async.

Variable cfg : Settings.
Implicit Types (w : World) (args : list jsval) (key : string).

(** Calls that find a live entry, one after the other: the world stays
    as it is and every caller is served that entry. *)
Lemma call_all_hits args key entry joins w :
  keyGenerator cfg args = Normal key ->
  JsMap.get key (cache w) = Some entry ->
  Forall (fun c => fst (fst c) <= expiresAt entry) joins ->
  call_all cfg args joins w = (w, map (fun _ => served entry) joins).
Proof.
  intros Hk G. induction 1 as [|[[now now'] r] joins Hc _ IH];
    [reflexivity|].
  cbn [call_all map]. simpl in Hc.
  rewrite (memoized_hit cfg now now' args key entry r w Hk G Hc).
  now rewrite IH.
Qed.

(** The first call of an asynchronous computation: what it hands back
    and what it leaves in the cache. *)
Lemma first_async_call now now' args key p w :
  keyGenerator cfg args = Normal key ->
  live now key (cache w) = false ->
  let first := memoized cfg now now' args (Normal (JPromise p)) w in
  let q := JPromise (Chained (S (next w))) in
  snd first = Normal q /\
  JsMap.get key (cache (fst first))
  = Some {| value := q; expiresAt := now' + ttl cfg; isError := None |} /\
  calls (fst first) = args :: calls w /\
  settled (fst first) = settled w.
Proof.
  intros Hk Hl first q. subst first.
  rewrite (memoized_miss cfg now now' args key _ w Hk Hl).
  unfold invoke. cbn [instanceof_Promise fst snd cache calls settled with_cache next].
  repeat split. apply get_set_same.
Qed.

(** C4.  With [cacheErrors] false, when the promise of an asynchronous
    computation is rejected with [err] and the two jobs have run: the
    handle that the first caller and every joined caller hold is
    rejected with [err], the key is absent from the cache, and the next
    call with the same arguments, whenever it comes, invokes the
    underlying function again. *)
Theorem async_failure_deletes_entry now now' args key n err t1 t2 joins w :
  cacheErrors cfg = false ->
  well_formed w ->
  keyGenerator cfg args = Normal key ->
  live now key (cache w) = false ->
  outcome_of (External n) (settled w) = None ->
  Forall (fun c => fst (fst c) <= now' + ttl cfg) joins ->
  let first := memoized cfg now now' args
                 (Normal (JPromise (External n))) w in
  let q := Chained (S (next w)) in
  let w4 := async_round cfg now now' args n (Rejected err) t1 t2 w in
  snd first = Normal (JPromise q) /\
  snd (call_all cfg args joins (fst first))
  = map (fun _ => Normal (JPromise q)) joins /\
  outcome_of q (settled w4) = Some (Rejected err) /\
  JsMap.get key (cache w4) = None /\
  (forall now3 now3' r3,
     calls (fst (memoized cfg now3 now3' args r3 w4))
     = args :: args :: calls w).
Proof.
  intros Hce Hwf Hk Hl Hn Hj first q w4.
  destruct (first_async_call now now' args key (External n) w Hk Hl)
    as (Hr & He & _ & _).
  fold first in Hr, He.
  destruct (async_round_spec cfg now now' args key n (Rejected err) t1 t2 w
              Hwf Hk Hl Hn) as (Hc4 & Ho & Hcalls & _).
  fold w4 in Hc4, Ho, Hcalls.
  cbn [run_handler fst snd settlement_of] in Hc4.
  unfold on_rejected in Hc4. rewrite Hce in Hc4. cbn [fst] in Hc4.
  assert (G : JsMap.get key (cache w4) = None)
    by (rewrite Hc4; apply get_delete_same).
  repeat split; try assumption.
  - now rewrite (call_all_hits args key _ joins (fst first) Hk He Hj).
  - intros now3 now3' r3.
    rewrite (memoized_miss cfg now3 now3' args key r3 w4 Hk)
      by (unfold live; now rewrite G).
    rewrite invoke_calls. cbn [calls with_cache]. now rewrite Hcalls.
Qed.

(** C7.  When the promise of an asynchronous computation is fulfilled
    with [val] and the two jobs have run: the entry of the key, which
    held the pending handle stamped [now' + ttl], holds [val] stamped
    with the clock of the [then] job plus [ttl], and the handle that the
    first caller and every joined caller hold is fulfilled with [val]. *)
Theorem async_success_restamps_entry now now' args key n val t1 t2 joins w :
  well_formed w ->
  keyGenerator cfg args = Normal key ->
  live now key (cache w) = false ->
  outcome_of (External n) (settled w) = None ->
  Forall (fun c => fst (fst c) <= now' + ttl cfg) joins ->
  let first := memoized cfg now now' args
                 (Normal (JPromise (External n))) w in
  let q := Chained (S (next w)) in
  let w4 := async_round cfg now now' args n (Fulfilled val) t1 t2 w in
  snd first = Normal (JPromise q) /\
  snd (call_all cfg args joins (fst first))
  = map (fun _ => Normal (JPromise q)) joins /\
  JsMap.get key (cache (fst first))
  = Some {| value := JPromise q; expiresAt := now' + ttl cfg;
            isError := None |} /\
  JsMap.get key (cache w4)
  = Some {| value := val; expiresAt := t1 + ttl cfg; isError := None |} /\
  outcome_of q (settled w4) = Some (Fulfilled val).
Proof.
  intros Hwf Hk Hl Hn Hj first q w4.
  destruct (first_async_call now now' args key (External n) w Hk Hl)
    as (Hr & He & _ & _).
  fold first in Hr, He.
  destruct (async_round_spec cfg now now' args key n (Fulfilled val) t1 t2 w
              Hwf Hk Hl Hn) as (Hc4 & Ho & _ & _).
  fold w4 in Hc4, Ho.
  cbn [run_handler fst snd settlement_of on_fulfilled] in Hc4.
  repeat split; try assumption.
  - now rewrite (call_all_hits args key _ joins (fst first) Hk He Hj).
  - rewrite Hc4. apply get_set_same.
Qed.

End Async.

(** ** The claims about failures *)

Section Failures.

Variable cfg : Settings.
Implicit Types (w : World) (args : list jsval) (key : string).

(** What a call does on a world whose cache holds an error entry under
    its key: it throws the stored value up to [expiresAt], and invokes
    the underlying function after. *)
Lemma error_entry_rethrown args key err exp w :
  keyGenerator cfg args = Normal key ->
  JsMap.get key (cache w)
  = Some {| value := err; expiresAt := exp; isError := Some true |} ->
  forall now2 now2' r2,
    (now2 <= exp ->
       memoized cfg now2 now2' args r2 w = (w, Throw err)) /\
    (exp < now2 ->
       calls (fst (memoized cfg now2 now2' args r2 w)) = args :: calls w).
Proof.
  intros Hk G now2 now2' r2. split; intros H.
  - now rewrite (memoized_hit cfg now2 now2' args key _ r2 w Hk G H).
  - rewrite (memoized_miss cfg now2 now2' args key r2 w Hk).
    + now rewrite invoke_calls.
    + unfold live. rewrite G. cbn [expiresAt].
      destruct (now2 >? exp) eqn:E; [reflexivity|lia].
Qed.

(** C5.  With [cacheErrors] true.  A call whose invocation throws
    [err] throws [err] and stores it with [expiresAt = now' + errorTTL];
    when the promise of an asynchronous computation is rejected with
    [err], the [catch] job, at clock [t2], stores it with
    [expiresAt = t2 + errorTTL].  In both cases a later call with the
    same arguments at a clock up to that [expiresAt] throws the stored
    [err] itself without invoking the underlying function, and a call
    at a later clock invokes it again. *)
Theorem cached_error_is_rethrown now now' args key n err t1 t2 w :
  cacheErrors cfg = true ->
  well_formed w ->
  keyGenerator cfg args = Normal key ->
  live now key (cache w) = false ->
  outcome_of (External n) (settled w) = None ->
  let first := memoized cfg now now' args (Throw err) w in
  let w4 := async_round cfg now now' args n (Rejected err) t1 t2 w in
  (snd first = Throw err /\
   calls (fst first) = args :: calls w /\
   forall now2 now2' r2,
     (now2 <= now' + errorTTL cfg ->
        memoized cfg now2 now2' args r2 (fst first)
        = (fst first, Throw err)) /\
     (now' + errorTTL cfg < now2 ->
        calls (fst (memoized cfg now2 now2' args r2 (fst first)))
        = args :: args :: calls w)) /\
  (outcome_of (Chained (S (next w))) (settled w4) = Some (Rejected err) /\
   calls w4 = args :: calls w /\
   forall now2 now2' r2,
     (now2 <= t2 + errorTTL cfg ->
        memoized cfg now2 now2' args r2 w4 = (w4, Throw err)) /\
     (t2 + errorTTL cfg < now2 ->
        calls (fst (memoized cfg now2 now2' args r2 w4))
        = args :: args :: calls w)).
Proof.
  intros Hce Hwf Hk Hl Hn first w4. split.
  - assert (E1 : first = invoke cfg now' args key (Throw err)
                   (with_cache (JsMap.delete key (cache w)) w))
      by (apply memoized_miss; assumption).
    assert (G : JsMap.get key (cache (fst first))
                = Some {| value := err; expiresAt := now' + errorTTL cfg;
                          isError := Some true |}).
    { rewrite E1. unfold invoke. rewrite Hce. cbn [fst cache].
      apply get_set_same. }
    assert (Hc : calls (fst first) = args :: calls w)
      by (rewrite E1, invoke_calls; reflexivity).
    repeat split.
    + now rewrite E1.
    + assumption.
    + apply (error_entry_rethrown args key err _ (fst first) Hk G).
    + rewrite <- Hc.
      apply (error_entry_rethrown args key err _ (fst first) Hk G).
  - destruct (async_round_spec cfg now now' args key n (Rejected err) t1 t2
                w Hwf Hk Hl Hn) as (Hc4 & Ho & Hcalls & _).
    fold w4 in Hc4, Ho, Hcalls.
    cbn [run_handler fst snd settlement_of] in Hc4.
    unfold on_rejected in Hc4. rewrite Hce in Hc4. cbn [fst] in Hc4.
    assert (G : JsMap.get key (cache w4)
                = Some {| value := err; expiresAt := t2 + errorTTL cfg;
                          isError := Some true |})
      by (rewrite Hc4; apply get_set_same).
    repeat split; try assumption.
    + apply (error_entry_rethrown args key err _ w4 Hk G).
    + rewrite <- Hcalls.
      apply (error_entry_rethrown args key err _ w4 Hk G).
Qed.


End Failures.

(** ** Worlds that can be reached are well formed *)

Section Reachable.

Variable cfg : Settings.

Lemma well_formed_with_cache c w :
  well_formed w -> well_formed (with_cache c w).
Proof. intros H. exact H. Qed.

Lemma well_formed_settle n o w :
  well_formed w -> well_formed (settle n o w).
Proof.
  intros [Hr Hs]. split; [exact Hr|].
  unfold settle, settle_promise. cbn [settled next].
  destruct (outcome_of (External n) (settled w)); [exact Hs|].
  constructor; [exact I|exact Hs].
Qed.

Lemma well_formed_invoke now' args key r w :
  well_formed w -> well_formed (fst (invoke cfg now' args key r w)).
Proof.
  intros [Hr Hs]. unfold invoke. destruct r as [v|e]; [|split; assumption].
  destruct (instanceof_Promise v); [|split; assumption].
  split; cbn [fst reactions settled next].
  - apply Forall_app. split.
    + eapply Forall_impl; [|exact Hr]. simpl. intros; lia.
    + repeat constructor; simpl; lia.
  - eapply Forall_impl; [|exact Hs].
    intros [[m|m] o]; simpl; intros; [exact I|lia].
Qed.

Lemma well_formed_memoized now now' args r w :
  well_formed w -> well_formed (fst (memoized cfg now now' args r w)).
Proof.
  intros Hwf. unfold memoized.
  destruct (keyGenerator cfg args) as [key|e]; [|exact Hwf].
  destruct (JsMap.get key (cache w)) as [entry|].
  - unfold purgeIfExpired. destruct (now >? expiresAt entry).
    + now apply well_formed_invoke, well_formed_with_cache.
    + now destruct (flag_set (isError entry)).
  - now apply well_formed_invoke.
Qed.

Lemma well_formed_react q now w :
  well_formed w -> well_formed (react cfg q now w).
Proof.
  intros Hwf. unfold react.
  destruct (find _ (reactions w)) as [rx|] eqn:F; [|exact Hwf].
  destruct (outcome_of (source rx) (settled w)) as [o|]; [|exact Hwf].
  destruct (run_handler cfg now (job rx) o (cache w)) as [c r].
  destruct Hwf as [Hr Hs]. split; cbn [reactions settled next].
  - apply Forall_forall. intros rx' Hin.
    apply filter_In in Hin. destruct Hin as [Hin _].
    exact (proj1 (Forall_forall _ _) Hr rx' Hin).
  - unfold settle_promise.
    destruct (outcome_of (Chained q) (settled w)); [exact Hs|].
    constructor; [|exact Hs].
    apply find_some in F. destruct F as [Hin Heq].
    apply Nat.eqb_eq in Heq. subst q.
    exact (proj1 (Forall_forall _ _) Hr rx Hin).
Qed.

Lemma well_formed_clear k w :
  well_formed w -> well_formed (fst (clear cfg k w)).
Proof.
  intros Hwf. unfold clear. destruct k as [args|]; [|exact Hwf].
  now destruct (keyGenerator cfg args).
Qed.

End Reachable.

(** * The claims on concrete runs *)

(** The settings of the runs below are [demo]: [ttl] is 100 and
    [errorTTL] 50; the arguments are the one string ["a"]. *)

Lemma key_generator_failure_propagates_witness :
  memoized (demo false) 0 0 [JNum 1] (Normal (JNum 2)) two_entries
  = (two_entries, Throw (JStr "bad arguments")).
Proof.
  apply (key_generator_failure_propagates (demo false) 0 0 [JNum 1]).
  reflexivity.
Defined.

Lemma clear_all_or_one_witness :
  stats (fst (clear (demo false) None two_entries)) = (0%nat, []) /\
  JsMap.get "a" (cache (fst (clear (demo false) (Some [JStr "a"]) two_entries)))
  = None /\
  JsMap.get "b" (cache (fst (clear (demo false) (Some [JStr "a"]) two_entries)))
  = Some {| value := JNum 2; expiresAt := 100; isError := None |}.
Proof.
  destruct (clear_all_or_one (demo false) [JStr "a"] "a" two_entries eq_refl)
    as [[_ Hall] (Hgone & Hkept & _)].
  split; [exact Hall|]. split; [exact Hgone|].
  rewrite (Hkept [JStr "b"] "b"%string eq_refl); [reflexivity|discriminate].
Defined.

Lemma expiry_is_lazy_and_strict_witness :
  memoized (demo false) 100 100 [JStr "a"] (Normal (JNum 9)) two_entries
  = (two_entries, Normal (JNum 1)) /\
  calls (fst (memoized (demo false) 101 101 [JStr "a"] (Normal (JNum 9))
                two_entries))
  = [JStr "a"] :: calls two_entries.
Proof.
  split.
  - apply (expiry_is_lazy_and_strict (demo false) 100 100 [JStr "a"] "a"
             {| value := JNum 1; expiresAt := 100; isError := None |}
             (Normal (JNum 9)) two_entries eq_refl eq_refl).
    reflexivity.
  - apply (expiry_is_lazy_and_strict (demo false) 101 101 [JStr "a"] "a"
             {| value := JNum 1; expiresAt := 100; isError := None |}
             (Normal (JNum 9)) two_entries eq_refl eq_refl).
    simpl. lia.
Defined.

Lemma falsy_result_is_cached_witness :
  snd (memoized (demo false) 100 100 [JStr "a"] (Normal (JNum 9))
         (fst (memoized (demo false) 0 0 [JStr "a"] (Normal (JNum 0))
                 fresh_world)))
  = Normal (JNum 0) /\
  calls (fst (memoized (demo false) 100 100 [JStr "a"] (Normal (JNum 9))
                (fst (memoized (demo false) 0 0 [JStr "a"] (Normal (JNum 0))
                        fresh_world))))
  = [[JStr "a"]].
Proof.
  assert (H : 100 <= 0 + ttl (demo false)) by (simpl; lia).
  destruct (falsy_result_is_cached (demo false) 0 0 100 100 [JStr "a"] "a"
              (JNum 0) (Normal (JNum 9)) fresh_world eq_refl eq_refl eq_refl H)
    as (_ & _ & _ & Hres & Hcalls).
  split; [exact Hres|exact Hcalls].
Defined.

Lemma async_failure_deletes_entry_witness :
  let w4 := async_round (demo false) 0 0 [JStr "a"] 0 (Rejected boom)
              200 200 fresh_world in
  outcome_of (Chained 1) (settled w4) = Some (Rejected boom) /\
  JsMap.get "a" (cache w4) = None /\
  calls (fst (memoized (demo false) 200 200 [JStr "a"] (Normal JNull) w4))
  = [[JStr "a"]; [JStr "a"]].
Proof.
  assert (Hwf : well_formed fresh_world) by (split; constructor).
  assert (Hj : Forall (fun c : Z * Z * completion jsval =>
                         fst (fst c) <= 0 + ttl (demo false))
                 [(50, 50, Normal JNull)])
    by (repeat constructor; simpl; lia).
  destruct (async_failure_deletes_entry (demo false) 0 0 [JStr "a"] "a" 0
              boom 200 200 [(50, 50, Normal JNull)] fresh_world
              eq_refl Hwf eq_refl eq_refl eq_refl Hj)
    as (_ & _ & Hrej & Hgone & Hagain).
  split; [exact Hrej|]. split; [exact Hgone|].
  exact (Hagain 200 200 (Normal JNull)).
Defined.

Lemma async_success_restamps_entry_witness :
  let w4 := async_round (demo false) 0 0 [JStr "a"] 0 (Fulfilled (JNum 5))
              70 70 fresh_world in
  JsMap.get "a" (cache w4)
  = Some {| value := JNum 5; expiresAt := 70 + 100; isError := None |} /\
  outcome_of (Chained 1) (settled w4) = Some (Fulfilled (JNum 5)).
Proof.
  assert (Hwf : well_formed fresh_world) by (split; constructor).
  assert (Hj : Forall (fun c : Z * Z * completion jsval =>
                         fst (fst c) <= 0 + ttl (demo false))
                 [(50, 50, Normal JNull)])
    by (repeat constructor; simpl; lia).
  destruct (async_success_restamps_entry (demo false) 0 0 [JStr "a"] "a" 0
              (JNum 5) 70 70 [(50, 50, Normal JNull)] fresh_world
              Hwf eq_refl eq_refl eq_refl Hj)
    as (_ & _ & _ & Hentry & Hful).
  split; [exact Hentry|exact Hful].
Defined.

Lemma cached_error_is_rethrown_witness :
  let first := memoized (demo true) 0 0 [JStr "a"] (Throw boom) fresh_world in
  memoized (demo true) 50 50 [JStr "a"] (Normal JNull) (fst first)
  = (fst first, Throw boom) /\
  calls (fst (memoized (demo true) 51 51 [JStr "a"] (Normal JNull) (fst first)))
  = [[JStr "a"]; [JStr "a"]].
Proof.
  assert (Hwf : well_formed fresh_world) by (split; constructor).
  destruct (cached_error_is_rethrown (demo true) 0 0 [JStr "a"] "a" 0 boom
              10 10 fresh_world eq_refl Hwf eq_refl eq_refl eq_refl)
    as [(_ & _ & Hsync) _].
  split.
  - apply (Hsync 50 50 (Normal JNull)). simpl. lia.
  - apply (Hsync 51 51 (Normal JNull)). simpl. lia.
Defined.


(** * Further properties of the wrapped function *)

Section Expiry.

Variable cfg : Settings.
Implicit Types (w : World) (args : list jsval) (key : string).

(** X1.  Being served does not prolong an entry: after any number of
    calls that were served from the cache, the first call at a clock
    after the [expiresAt] that the entry had from the start invokes the
    underlying function. *)
Theorem serving_does_not_extend_expiry args key entry joins now now' r w :
  keyGenerator cfg args = Normal key ->
  JsMap.get key (cache w) = Some entry ->
  Forall (fun c => fst (fst c) <= expiresAt entry) joins ->
  expiresAt entry < now ->
  let served_all := call_all cfg args joins w in
  snd served_all = map (fun _ => served entry) joins /\
  JsMap.get key (cache (fst served_all)) = Some entry /\
  calls (fst (memoized cfg now now' args r (fst served_all)))
  = args :: calls w.
Proof.
  intros Hk G Hj Hlt served_all. unfold served_all.
  rewrite (call_all_hits cfg args key entry joins w Hk G Hj). cbn [fst snd].
  repeat split; [assumption|].
  rewrite (memoized_miss cfg now now' args key r w Hk).
  - now rewrite invoke_calls.
  - unfold live. rewrite G.
    destruct (now >? expiresAt entry) eqn:E; [reflexivity|lia].
Qed.

(** X2.  With [cacheErrors] false, a call whose invocation throws leaves
    no entry under its key: the cache afterwards is the cache before with
    the key deleted, so an expired entry that was still there is gone,
    the entries of the other keys are what they were and the cache has
    not grown. *)
Theorem failing_call_leaves_no_entry now now' args key err w :
  cacheErrors cfg = false ->
  keyGenerator cfg args = Normal key ->
  live now key (cache w) = false ->
  let after := memoized cfg now now' args (Throw err) w in
  snd after = Throw err /\
  cache (fst after) = JsMap.delete key (cache w) /\
  JsMap.get key (cache (fst after)) = None /\
  (forall key', key' <> key ->
     JsMap.get key' (cache (fst after)) = JsMap.get key' (cache w)) /\
  (fst (stats (fst after)) <= fst (stats w))%nat.
Proof.
  intros Hce Hk Hl after. unfold after.
  rewrite (memoized_miss cfg now now' args key _ w Hk Hl).
  unfold invoke. rewrite Hce. cbn [fst snd cache with_cache stats].
  repeat split.
  - apply get_delete_same.
  - intros key' Hne. apply get_delete_other. congruence.
  - apply size_delete.
Qed.

(** X3.  Once an asynchronous computation has been fulfilled with [val]
    and its jobs have run, a call with the same arguments up to [ttl]
    after the [then] job is given [val] itself, not a promise, without
    an invocation; a call after that invokes the underlying function. *)
Theorem settled_value_is_served_bare now now' args key n val t1 t2 w :
  well_formed w ->
  keyGenerator cfg args = Normal key ->
  live now key (cache w) = false ->
  outcome_of (External n) (settled w) = None ->
  let w4 := async_round cfg now now' args n (Fulfilled val) t1 t2 w in
  forall now2 now2' r2,
    (now2 <= t1 + ttl cfg ->
       memoized cfg now2 now2' args r2 w4 = (w4, Normal val)) /\
    (t1 + ttl cfg < now2 ->
       calls (fst (memoized cfg now2 now2' args r2 w4))
       = args :: args :: calls w).
Proof.
  intros Hwf Hk Hl Hn w4 now2 now2' r2.
  destruct (async_round_spec cfg now now' args key n (Fulfilled val) t1 t2 w
              Hwf Hk Hl Hn) as (Hc4 & _ & Hcalls & _).
  fold w4 in Hc4, Hcalls.
  cbn [run_handler fst snd settlement_of on_fulfilled] in Hc4.
  assert (G : JsMap.get key (cache w4)
              = Some {| value := val; expiresAt := t1 + ttl cfg;
                        isError := None |})
    by (rewrite Hc4; apply get_set_same).
  split; intros H.
  - now rewrite (memoized_hit cfg now2 now2' args key _ r2 w4 Hk G H).
  - rewrite (memoized_miss cfg now2 now2' args key r2 w4 Hk).
    + rewrite invoke_calls. cbn [calls with_cache]. now rewrite Hcalls.
    + unfold live. rewrite G. cbn [expiresAt].
      destruct (now2 >? t1 + ttl cfg) eqn:E; [reflexivity|lia].
Qed.

(** X4.  With a negative [ttl] a result that an invocation returned
    is never served.  The entry that a call stores for a returned value
    or promise has expired at every clock from the one it was stamped
    with on, and so has the entry that the [then] job writes when the
    promise is fulfilled: the next call with the same arguments invokes
    the underlying function again.  (An error entry is stamped with
    [errorTTL]; nothing is said of it here.) *)
Theorem negative_ttl_serves_no_result
  now1 now1' now2 now2' args key v n val t1 t2 r2 w :
  ttl cfg < 0 ->
  well_formed w ->
  keyGenerator cfg args = Normal key ->
  live now1 key (cache w) = false ->
  outcome_of (External n) (settled w) = None ->
  (now1' <= now2 ->
     let first := memoized cfg now1 now1' args (Normal v) w in
     live now2 key (cache (fst first)) = false /\
     calls (fst (memoized cfg now2 now2' args r2 (fst first)))
     = args :: args :: calls w) /\
  (t1 <= now2 ->
     let w4 := async_round cfg now1 now1' args n (Fulfilled val) t1 t2 w in
     live now2 key (cache w4) = false /\
     calls (fst (memoized cfg now2 now2' args r2 w4))
     = args :: args :: calls w).
Proof.
  intros Hneg Hwf Hk Hl Hn. split.
  - intros Hle first.
    assert (E1 : first = invoke cfg now1' args key (Normal v)
                   (with_cache (JsMap.delete key (cache w)) w))
      by (apply memoized_miss; assumption).
    set (w0 := with_cache (JsMap.delete key (cache w)) w) in *.
    pose proof (invoke_entry cfg now1' args key v w0) as He.
    rewrite <- E1 in He.
    assert (Hl2 : live now2 key (cache (fst first)) = false).
    { unfold live. rewrite He.
      destruct (handed_back w0 (Normal v)) as [x|e]; [|reflexivity].
      cbn [expiresAt].
      destruct (now2 >? now1' + ttl cfg) eqn:E; [reflexivity|lia]. }
    split; [exact Hl2|].
    rewrite (memoized_miss cfg now2 now2' args key r2 (fst first) Hk Hl2).
    rewrite invoke_calls. cbn [calls with_cache].
    now rewrite E1, invoke_calls.
  - intros Hle w4.
    destruct (async_round_spec cfg now1 now1' args key n (Fulfilled val)
                t1 t2 w Hwf Hk Hl Hn) as (Hc4 & _ & Hcalls & _).
    fold w4 in Hc4, Hcalls.
    cbn [run_handler fst snd settlement_of on_fulfilled] in Hc4.
    assert (Hl4 : live now2 key (cache w4) = false).
    { unfold live. rewrite Hc4, get_set_same. cbn [expiresAt].
      destruct (now2 >? t1 + ttl cfg) eqn:E; [reflexivity|lia]. }
    split; [exact Hl4|].
    rewrite (memoized_miss cfg now2 now2' args key r2 w4 Hk Hl4).
    rewrite invoke_calls. cbn [calls with_cache]. now rewrite Hcalls.
Qed.

(** X5.  After [clear()] every call invokes the underlying function,
    whatever was cached.  After [clear(args)] a call with [args] invokes
    it, while a call under another key that had a live entry is still
    served that entry.  Clearing itself invokes nothing. *)
Theorem clear_forces_recomputation args key w :
  keyGenerator cfg args = Normal key ->
  (forall args' key' now now' r,
     keyGenerator cfg args' = Normal key' ->
     calls (fst (memoized cfg now now' args' r (fst (clear cfg None w))))
     = args' :: calls w) /\
  (forall now now' r,
     calls (fst (memoized cfg now now' args r
                   (fst (clear cfg (Some args) w))))
     = args :: calls w) /\
  (forall args' key' entry now now' r,
     keyGenerator cfg args' = Normal key' -> key' <> key ->
     JsMap.get key' (cache w) = Some entry -> now <= expiresAt entry ->
     snd (memoized cfg now now' args' r (fst (clear cfg (Some args) w)))
     = served entry /\
     calls (fst (memoized cfg now now' args' r
                   (fst (clear cfg (Some args) w))))
     = calls w).
Proof.
  intros Hk. split; [|split].
  - intros args' key' now now' r Hk'.
    rewrite (memoized_miss cfg now now' args' key' r _ Hk') by reflexivity.
    now rewrite invoke_calls.
  - intros now now' r. unfold clear. rewrite Hk. cbn [fst].
    rewrite (memoized_miss cfg now now' args key r _ Hk).
    + now rewrite invoke_calls.
    + unfold live. cbn [cache with_cache]. now rewrite get_delete_same.
  - intros args' key' entry now now' r Hk' Hne G Hle.
    unfold clear. rewrite Hk. cbn [fst].
    rewrite (memoized_hit cfg now now' args' key' entry r _ Hk');
      [split; reflexivity| |assumption].
    cbn [cache with_cache]. rewrite get_delete_other; [assumption|congruence].
Qed.

End Expiry.

(** X13.  [errorTTL] is used only when [cacheErrors] is true: with
    [cacheErrors] false, a call and a job do the same whatever
    [errorTTL] is. *)
Theorem errorTTL_unused_without_cacheErrors cfg e now now' args r q w :
  cacheErrors cfg = false ->
  memoized (with_errorTTL e cfg) now now' args r w
  = memoized cfg now now' args r w /\
  react (with_errorTTL e cfg) q now w = react cfg q now w.
Proof.
  intros Hce. split.
  - unfold memoized, with_errorTTL. cbn [keyGenerator].
    destruct (keyGenerator cfg args) as [key|x]; [|reflexivity].
    assert (Hi : forall w0,
               invoke (with_errorTTL e cfg) now' args key r w0
               = invoke cfg now' args key r w0).
    { intros w0. unfold invoke, with_errorTTL. cbn [cacheErrors ttl].
      rewrite Hce. reflexivity. }
    unfold with_errorTTL in Hi.
    destruct (JsMap.get key (cache w)) as [entry|]; [|apply Hi].
    unfold purgeIfExpired. destruct (now >? expiresAt entry); [apply Hi|].
    reflexivity.
  - unfold react.
    destruct (find _ (reactions w)) as [rx|]; [|reflexivity].
    destruct (outcome_of (source rx) (settled w)) as [o|]; [|reflexivity].
    assert (Hh : run_handler (with_errorTTL e cfg) now (job rx) o (cache w)
                 = run_handler cfg now (job rx) o (cache w)).
    { unfold run_handler, on_fulfilled, on_rejected, with_errorTTL.
      cbn [cacheErrors ttl]. rewrite Hce.
      destruct (job rx), o; reflexivity. }
    now rewrite Hh.
Qed.

(** ** The keys that [stats] enumerates *)

Section KeyFacts.

Context {V : Type}.
Implicit Types (k : string) (v : V) (m : JsMap.t V).

Lemma get_none_keys k m : JsMap.get k m = None <-> ~ In k (JsMap.keys m).
Proof.
  unfold JsMap.keys. induction m as [|[k' v'] m IH]; simpl.
  - tauto.
  - destruct (String.eqb k k') eqn:E.
    + apply String.eqb_eq in E. subst. split; [discriminate|tauto].
    + apply String.eqb_neq in E. rewrite IH. split.
      * intros H [H'|H']; [congruence|tauto].
      * tauto.
Qed.

Lemma keys_set_absent k v m :
  JsMap.get k m = None -> JsMap.keys (JsMap.set k v m) = JsMap.keys m ++ [k].
Proof.
  unfold JsMap.keys. induction m as [|[k' v'] m IH]; simpl; [reflexivity|].
  destruct (String.eqb k k'); [discriminate|].
  intros H. simpl. now rewrite IH.
Qed.

Lemma keys_set_present k v m :
  JsMap.get k m <> None -> JsMap.keys (JsMap.set k v m) = JsMap.keys m.
Proof.
  unfold JsMap.keys. induction m as [|[k' v'] m IH]; simpl; [congruence|].
  destruct (String.eqb k k') eqn:E; simpl.
  - apply String.eqb_eq in E. now subst.
  - intros H. now rewrite IH.
Qed.

Lemma size_set_absent k v m :
  JsMap.get k m = None -> JsMap.size (JsMap.set k v m) = S (JsMap.size m).
Proof.
  intros H. unfold JsMap.size.
  rewrite <- (length_map fst (JsMap.set k v m)), <- (length_map fst m).
  change (map fst (JsMap.set k v m)) with (JsMap.keys (JsMap.set k v m)).
  rewrite (keys_set_absent k v m H). unfold JsMap.keys.
  rewrite length_app. simpl. lia.
Qed.

Lemma NoDup_keys_set k v m :
  NoDup (JsMap.keys m) -> NoDup (JsMap.keys (JsMap.set k v m)).
Proof.
  intros H. destruct (JsMap.get k m) as [x|] eqn:G.
  - rewrite keys_set_present by congruence. exact H.
  - rewrite (keys_set_absent k v m G).
    apply NoDup_app; [exact H|repeat constructor; simpl; tauto|].
    intros a Ha [<-|[]]. now apply get_none_keys in G.
Qed.

Lemma NoDup_keys_delete k m :
  NoDup (JsMap.keys m) -> NoDup (JsMap.keys (JsMap.delete k m)).
Proof. intros H. rewrite keys_delete. now apply NoDup_filter. Qed.

End KeyFacts.

Section Keys.

Variable cfg : Settings.
Implicit Types (w : World) (args : list jsval) (key : string).

(** The entry that an invocation which returned stores under its key. *)
Lemma invoke_cache_returned now' args key v w :
  exists entry,
    cache (fst (invoke cfg now' args key (Normal v) w))
    = JsMap.set key entry (cache w).
Proof.
  unfold invoke. destruct (instanceof_Promise v); eexists; reflexivity.
Qed.

Lemma invoke_cache_cases now' args key r w :
  cache (fst (invoke cfg now' args key r w)) = cache w \/
  exists entry,
    cache (fst (invoke cfg now' args key r w))
    = JsMap.set key entry (cache w).
Proof.
  destruct r as [v|e].
  - right. apply invoke_cache_returned.
  - unfold invoke. destruct (cacheErrors cfg);
      [right; eexists; reflexivity|now left].
Qed.

(** X8.  Calls whose keys are pairwise distinct and not yet in the
    cache, each returning from its invocation, add one entry each:
    [stats] reports the old size plus their number, and the old keys
    followed by the new ones in the order of the calls; the underlying
    function has been invoked once per call. *)
Theorem distinct_keys_accumulate cs ks w :
  map (fun c => keyGenerator cfg (snd (fst c))) cs = map Normal ks ->
  Forall (fun c => exists v, snd c = Normal v) cs ->
  NoDup ks ->
  Forall (fun k => JsMap.get k (cache w) = None) ks ->
  stats (fst (call_each cfg cs w))
  = ((fst (stats w) + List.length cs)%nat, snd (stats w) ++ ks) /\
  calls (fst (call_each cfg cs w))
  = rev (map (fun c => snd (fst c)) cs) ++ calls w.
Proof.
  revert ks w.
  induction cs as [|[[[now now'] args] r] cs IH]; intros ks w Hks Hr Hnd Habs.
  - destruct ks; [|discriminate]. unfold stats. cbn [call_each fst snd].
    now rewrite Nat.add_0_r, app_nil_r.
  - destruct ks as [|k ks]; [discriminate|].
    cbn [map fst snd] in Hks. injection Hks as Hk Hks.
    inversion Hr as [|c cs' [v Hv] Hr']; subst. cbn [snd] in Hv. subst r.
    inversion Hnd as [|k' ks' Hnotin Hnd']; subst.
    inversion Habs as [|k' ks' Hk0 Habs']; subst.
    cbn [call_each].
    destruct (memoized cfg now now' args (Normal v) w) as [w1 res] eqn:E1.
    destruct (call_each cfg cs w1) as [w2 ress] eqn:E2.
    cbn [fst].
    assert (Hl : live now k (cache w) = false)
      by (unfold live; now rewrite Hk0).
    rewrite (memoized_miss cfg now now' args k _ w Hk Hl) in E1.
    rewrite (delete_absent _ _ Hk0), with_cache_same in E1.
    destruct (invoke_cache_returned now' args k v w) as [entry Hc].
    pose proof (invoke_calls cfg now' args k (Normal v) w) as Hcalls.
    rewrite E1 in Hc, Hcalls. cbn [fst] in Hc, Hcalls.
    assert (Habs1 : Forall (fun k' => JsMap.get k' (cache w1) = None) ks).
    { apply Forall_forall. intros k' Hin. rewrite Hc.
      rewrite get_set_other by (intros ->; contradiction).
      exact (proj1 (Forall_forall _ _) Habs' k' Hin). }
    destruct (IH ks w1 Hks Hr' Hnd' Habs1) as [Hst Hca].
    rewrite E2 in Hst, Hca. cbn [fst] in Hst, Hca.
    rewrite Hst, Hca, Hcalls. unfold stats. cbn [fst snd map rev length].
    rewrite Hc, (size_set_absent _ _ _ Hk0), (keys_set_absent _ _ _ Hk0).
    rewrite <- !app_assoc. cbn [app].
    split; [|reflexivity]. f_equal. cbn [List.length]. lia.
Qed.

(** X9.  A key that is computed again after its entry has expired goes
    to the end of the enumeration: the keys after the call are the other
    keys in their order, followed by this one. *)
Theorem recomputed_key_moves_to_end now now' args key entry v w :
  keyGenerator cfg args = Normal key ->
  JsMap.get key (cache w) = Some entry ->
  expiresAt entry < now ->
  snd (stats (fst (memoized cfg now now' args (Normal v) w)))
  = filter (fun k => negb (String.eqb key k)) (snd (stats w)) ++ [key].
Proof.
  intros Hk G Hlt.
  rewrite (memoized_miss cfg now now' args key _ w Hk)
    by (unfold live; rewrite G;
        destruct (now >? expiresAt entry) eqn:E; [reflexivity|lia]).
  destruct (invoke_cache_returned now' args key v
              (with_cache (JsMap.delete key (cache w)) w)) as [e He].
  unfold stats. cbn [snd]. rewrite He. cbn [cache with_cache].
  rewrite keys_set_absent by apply get_delete_same.
  now rewrite keys_delete.
Qed.

(** X10.  The settlement of an asynchronous computation writes in place:
    when it is fulfilled, or rejected with [cacheErrors] true, the keys
    and their order are what they were once the call had stored the
    pending handle; when it is rejected with [cacheErrors] false, the
    key is taken out and the others keep their order. *)
Theorem settlement_keeps_key_order now now' args key n o t1 t2 w :
  well_formed w ->
  keyGenerator cfg args = Normal key ->
  live now key (cache w) = false ->
  outcome_of (External n) (settled w) = None ->
  let first := memoized cfg now now' args
                 (Normal (JPromise (External n))) w in
  let w4 := async_round cfg now now' args n o t1 t2 w in
  snd (stats w4)
  = match o with
    | Fulfilled _ => snd (stats (fst first))
    | Rejected _ =>
        if cacheErrors cfg then snd (stats (fst first))
        else filter (fun k => negb (String.eqb key k)) (snd (stats (fst first)))
    end.
Proof.
  intros Hwf Hk Hl Hn first w4.
  destruct (async_round_spec cfg now now' args key n o t1 t2 w Hwf Hk Hl Hn)
    as (Hc4 & _).
  fold w4 in Hc4.
  assert (Hc1 : cache (fst first)
                = JsMap.set key
                    {| value := JPromise (Chained (S (next w)));
                       expiresAt := now' + ttl cfg; isError := None |}
                    (JsMap.delete key (cache w))).
  { unfold first.
    now rewrite (memoized_miss cfg now now' args key _ w Hk Hl). }
  rewrite <- Hc1 in Hc4.
  assert (Hp : JsMap.get key (cache (fst first)) <> None)
    by (rewrite Hc1, get_set_same; discriminate).
  unfold stats. cbn [snd]. rewrite Hc4.
  destruct o as [val|err]; cbn [run_handler fst snd settlement_of].
  - unfold on_fulfilled. cbn [fst]. now apply keys_set_present.
  - unfold on_rejected. destruct (cacheErrors cfg); cbn [fst].
    + now apply keys_set_present.
    + apply keys_delete.
Qed.

(** X11.  No operation ever leaves two entries under one key: when the
    keys of the cache are pairwise distinct, they still are after a
    call, after a job, after [clear] and after the settlement of a
    promise; and they are in the cache that [memoize] starts with. *)
Theorem keys_stay_distinct now now' args r q k n o w :
  NoDup (snd (stats w)) ->
  NoDup (snd (stats (fst (memoized cfg now now' args r w)))) /\
  NoDup (snd (stats (react cfg q now w))) /\
  NoDup (snd (stats (fst (clear cfg k w)))) /\
  NoDup (snd (stats (settle n o w))) /\
  NoDup (snd (stats fresh_world)).
Proof.
  unfold stats. cbn [snd]. intros H.
  assert (Hinv : forall now' key w0,
            NoDup (JsMap.keys (cache w0)) ->
            NoDup (JsMap.keys (cache (fst (invoke cfg now' args key r w0))))).
  { intros t key w0 H0.
    destruct (invoke_cache_cases t args key r w0) as [E|[e E]]; rewrite E;
      [exact H0|now apply NoDup_keys_set]. }
  split; [|split; [|split; [|split]]].
  - unfold memoized. destruct (keyGenerator cfg args) as [key|e]; [|exact H].
    destruct (JsMap.get key (cache w)) as [entry|]; [|now apply Hinv].
    unfold purgeIfExpired. destruct (now >? expiresAt entry).
    + apply Hinv. cbn [cache with_cache]. now apply NoDup_keys_delete.
    + now destruct (flag_set (isError entry)).
  - unfold react. destruct (find _ (reactions w)) as [rx|]; [|exact H].
    destruct (outcome_of (source rx) (settled w)) as [x|]; [|exact H].
    destruct (run_handler cfg now (job rx) x (cache w)) as [c res] eqn:E.
    cbn [cache].
    assert (Ec : c = fst (run_handler cfg now (job rx) x (cache w)))
      by now rewrite E.
    rewrite Ec. unfold run_handler, on_fulfilled, on_rejected.
    destruct (job rx), x; cbn [fst]; try exact H.
    + now apply NoDup_keys_set.
    + destruct (cacheErrors cfg);
        [now apply NoDup_keys_set|now apply NoDup_keys_delete].
  - unfold clear. destruct k as [args'|]; [|constructor].
    destruct (keyGenerator cfg args'); [|exact H].
    now apply NoDup_keys_delete.
  - exact H.
  - constructor.
Qed.

End Keys.

(** ** Computations that overlap with other operations *)

Section Overlap.

Variable cfg : Settings.
Implicit Types (w : World) (args : list jsval) (key : string).

Lemma skip_targets (q : nat) (rs : list reaction) :
  Forall (fun rx => target rx <> q) rs ->
  Forall (fun rx => Nat.eqb (target rx) q = false) rs /\
  filter (fun rx => negb (Nat.eqb (target rx) q)) rs = rs.
Proof.
  intros H. split.
  - eapply Forall_impl; [|exact H]. intros rx Hrx. now apply Nat.eqb_neq.
  - apply filter_keeps. eapply Forall_impl; [|exact H].
    intros rx Hrx. simpl. apply Nat.eqb_neq in Hrx. now rewrite Hrx.
Qed.

(** The two jobs of one computation, wherever its reactions stand among
    the registered ones and whatever the cache holds by then. *)
Lemma jobs_run p key q o t1 t2 rs rs' w :
  reactions w = rs ++ then_reaction p key q :: catch_reaction key q :: rs' ->
  Forall (fun rx => target rx <> q /\ target rx <> S q) rs ->
  Forall (fun rx => target rx <> q /\ target rx <> S q) rs' ->
  outcome_of p (settled w) = Some o ->
  outcome_of (Chained q) (settled w) = None ->
  outcome_of (Chained (S q)) (settled w) = None ->
  let h1 := run_handler cfg t1 (OnFulfilled key) o (cache w) in
  let h2 := run_handler cfg t2 (OnRejected key)
              (settlement_of (snd h1)) (fst h1) in
  let w' := react cfg (S q) t2 (react cfg q t1 w) in
  cache w' = fst h2 /\
  outcome_of (Chained (S q)) (settled w') = Some o /\
  (forall p', p' <> Chained q -> p' <> Chained (S q) ->
     outcome_of p' (settled w') = outcome_of p' (settled w)) /\
  calls w' = calls w /\
  reactions w' = rs ++ rs'.
Proof.
  intros Hrs Hf Hf' Hp Hq Hsq h1 h2 w'.
  assert (Ha : Forall (fun rx => target rx <> q) rs)
    by (eapply Forall_impl; [|exact Hf]; simpl; tauto).
  assert (Hb : Forall (fun rx => target rx <> S q) rs)
    by (eapply Forall_impl; [|exact Hf]; simpl; tauto).
  assert (Ha' : Forall (fun rx => target rx <> q) rs')
    by (eapply Forall_impl; [|exact Hf']; simpl; tauto).
  assert (Hb' : Forall (fun rx => target rx <> S q) rs')
    by (eapply Forall_impl; [|exact Hf']; simpl; tauto).
  destruct (skip_targets q rs Ha) as [Hs1 Hk1].
  destruct (skip_targets (S q) rs Hb) as [Hs2 Hk2].
  destruct (skip_targets q rs' Ha') as [_ Hk1'].
  destruct (skip_targets (S q) rs' Hb') as [_ Hk2'].
  assert (Hne : Nat.eqb (S q) q = false) by (apply Nat.eqb_neq; lia).
  set (tbl3 := settle_promise (Chained q) (settlement_of (snd h1)) (settled w)).
  set (w3 := {| cache := fst h1; settled := tbl3;
                reactions := rs ++ catch_reaction key q :: rs';
                next := next w; calls := calls w |}).
  assert (E3 : react cfg q t1 w = w3).
  { rewrite (react_runs cfg q t1 w (then_reaction p key q) o).
    - unfold w3. cbn [job then_reaction]. fold h1. fold tbl3. f_equal.
      rewrite Hrs, filter_app, Hk1.
      cbn [filter target then_reaction catch_reaction].
      now rewrite Nat.eqb_refl, Hne, Hk1'.
    - rewrite Hrs, (find_app_skip _ _ _ Hs1).
      cbn [find target then_reaction]. now rewrite Nat.eqb_refl.
    - exact Hp. }
  assert (E4 : react cfg (S q) t2 w3
               = {| cache := fst h2;
                    settled := settle_promise (Chained (S q))
                                 (settlement_of (snd h2)) tbl3;
                    reactions := rs ++ rs';
                    next := next w; calls := calls w |}).
  { rewrite (react_runs cfg (S q) t2 w3 (catch_reaction key q)
               (settlement_of (snd h1))).
    - unfold w3. cbn [cache settled reactions next calls job catch_reaction].
      fold h2. f_equal.
      rewrite filter_app, Hk2. cbn [filter target catch_reaction].
      now rewrite Nat.eqb_refl, Hk2'.
    - unfold w3. cbn [reactions].
      rewrite (find_app_skip _ _ _ Hs2). cbn [find target catch_reaction].
      now rewrite Nat.eqb_refl.
    - unfold w3, tbl3. cbn [settled source catch_reaction].
      now apply outcome_settle_new. }
  subst w'. rewrite E3, E4. cbn [cache settled reactions calls].
  repeat split.
  - rewrite outcome_settle_new.
    + f_equal. unfold h2, h1. apply handlers_pass.
    + unfold tbl3. rewrite outcome_settle_other; [exact Hsq|].
      intros E. injection E. lia.
  - intros p' H1 H2. unfold tbl3.
    rewrite !outcome_settle_other; congruence.
Qed.

(** The world after a call that missed and was given a promise. *)
Lemma async_call_world now now' args key p w :
  keyGenerator cfg args = Normal key ->
  live now key (cache w) = false ->
  fst (memoized cfg now now' args (Normal (JPromise p)) w)
  = {| cache := JsMap.set key
                  {| value := JPromise (Chained (S (next w)));
                     expiresAt := now' + ttl cfg; isError := None |}
                  (JsMap.delete key (cache w));
       settled := settled w;
       reactions := reactions w
                    ++ [then_reaction p key (next w);
                        catch_reaction key (next w)];
       next := S (S (next w)); calls := args :: calls w |}.
Proof.
  intros Hk Hl. now rewrite (memoized_miss cfg now now' args key _ w Hk Hl).
Qed.

Lemma old_targets w :
  well_formed w ->
  Forall (fun rx => target rx <> next w /\ target rx <> S (next w))
    (reactions w).
Proof.
  intros [H _]. eapply Forall_impl; [|exact H]. simpl. intros; lia.
Qed.

(** X6.  [clear] does not cancel a computation that is pending.  After
    [clear()] or [clear(args)] the key is absent, but when the promise
    settles its jobs run as they would have: the handle of the callers
    is settled with the outcome, and the cache holds the value again
    when the promise was fulfilled, the error when it was rejected and
    [cacheErrors] is true, and nothing under the key otherwise. *)
Theorem clear_does_not_cancel now now' args key n o t1 t2 k w :
  well_formed w ->
  keyGenerator cfg args = Normal key ->
  live now key (cache w) = false ->
  outcome_of (External n) (settled w) = None ->
  k = None \/ k = Some args ->
  let first := memoized cfg now now' args
                 (Normal (JPromise (External n))) w in
  let cleared := fst (clear cfg k (fst first)) in
  let w4 := react cfg (S (next w)) t2
              (react cfg (next w) t1 (settle n o cleared)) in
  JsMap.get key (cache cleared) = None /\
  outcome_of (Chained (S (next w))) (settled w4) = Some o /\
  JsMap.get key (cache w4)
  = match o with
    | Fulfilled val =>
        Some {| value := val; expiresAt := t1 + ttl cfg; isError := None |}
    | Rejected err =>
        if cacheErrors cfg
        then Some {| value := err; expiresAt := t2 + errorTTL cfg;
                     isError := Some true |}
        else None
    end.
Proof.
  intros Hwf Hk Hl Hn Hcl first cleared w4.
  pose proof (async_call_world now now' args key (External n) w Hk Hl) as E1.
  fold first in E1.
  assert (Hgone : JsMap.get key (cache cleared) = None).
  { unfold cleared, clear. destruct Hcl as [->| ->].
    - reflexivity.
    - rewrite Hk. cbn [fst cache with_cache]. apply get_delete_same. }
  assert (Hrs : reactions (settle n o cleared)
                = reactions w
                  ++ then_reaction (External n) key (next w)
                  :: catch_reaction key (next w) :: []).
  { unfold cleared, clear. destruct Hcl as [->| ->].
    - cbn [fst settle reactions with_cache]. now rewrite E1.
    - rewrite Hk. cbn [fst settle reactions with_cache]. now rewrite E1. }
  assert (Hst : settled (settle n o cleared)
                = settle_promise (External n) o (settled w)).
  { unfold cleared, clear. destruct Hcl as [->| ->].
    - cbn [fst settle settled with_cache]. now rewrite E1.
    - rewrite Hk. cbn [fst settle settled with_cache]. now rewrite E1. }
  assert (Hca : cache (settle n o cleared) = cache cleared) by reflexivity.
  destruct (jobs_run (External n) key (next w) o t1 t2 (reactions w) []
              (settle n o cleared) Hrs (old_targets w Hwf) (Forall_nil _))
    as (Hc4 & Ho & _).
  - rewrite Hst. now apply outcome_settle_new.
  - rewrite Hst, outcome_settle_other by discriminate.
    eapply outcome_unused; [apply Hwf|lia].
  - rewrite Hst, outcome_settle_other by discriminate.
    eapply outcome_unused; [apply Hwf|lia].
  - fold w4 in Hc4, Ho. split; [exact Hgone|]. split; [exact Ho|].
    rewrite Hc4, Hca.
    destruct o as [val|err]; cbn [run_handler fst snd settlement_of].
    + unfold on_fulfilled. cbn [fst]. apply get_set_same.
    + unfold on_rejected. destruct (cacheErrors cfg); cbn [fst].
      * apply get_set_same.
      * apply get_delete_same.
Qed.

(** X7.  When a second computation has been started for a key because
    the pending entry of the first had expired, the fulfilment of the
    first still writes its value under the key: the entry with the
    second handle is replaced while that handle is pending, and a call
    up to [ttl] after the [then] job of the first is given the value of
    the first computation, without an invocation. *)
Theorem stale_settlement_overwrites
  now0 now0' now1 now1' args key a b val t1 t2 w :
  well_formed w ->
  keyGenerator cfg args = Normal key ->
  live now0 key (cache w) = false ->
  outcome_of (External a) (settled w) = None ->
  now0' + ttl cfg < now1 ->
  let first := memoized cfg now0 now0' args
                 (Normal (JPromise (External a))) w in
  let second := memoized cfg now1 now1' args
                  (Normal (JPromise (External b))) (fst first) in
  let newer := Chained (S (S (S (next w)))) in
  let w' := react cfg (S (next w)) t2
              (react cfg (next w) t1
                 (settle a (Fulfilled val) (fst second))) in
  snd second = Normal (JPromise newer) /\
  calls (fst second) = args :: args :: calls w /\
  JsMap.get key (cache (fst second))
  = Some {| value := JPromise newer; expiresAt := now1' + ttl cfg;
            isError := None |} /\
  JsMap.get key (cache w')
  = Some {| value := val; expiresAt := t1 + ttl cfg; isError := None |} /\
  outcome_of newer (settled w') = None /\
  (forall now2 now2' r2,
     now2 <= t1 + ttl cfg ->
     memoized cfg now2 now2' args r2 w' = (w', Normal val)).
Proof.
  intros Hwf Hk Hl Ha Hexp first second newer w'.
  pose proof (async_call_world now0 now0' args key (External a) w Hk Hl)
    as E1.
  fold first in E1.
  assert (Hl1 : live now1 key (cache (fst first)) = false).
  { rewrite E1. unfold live. cbn [cache]. rewrite get_set_same.
    cbn [expiresAt].
    destruct (now1 >? now0' + ttl cfg) eqn:E; [reflexivity|lia]. }
  pose proof (async_call_world now1 now1' args key (External b) (fst first)
                Hk Hl1) as E2.
  fold second in E2.
  destruct (first_async_call cfg now1 now1' args key (External b) (fst first)
              Hk Hl1) as (Hr2 & He2 & _ & _).
  fold second in Hr2, He2.
  assert (Hn1 : next (fst first) = S (S (next w))) by now rewrite E1.
  rewrite Hn1 in Hr2, He2. fold newer in Hr2, He2.
  assert (Hrs : reactions (settle a (Fulfilled val) (fst second))
                = reactions w
                  ++ then_reaction (External a) key (next w)
                  :: catch_reaction key (next w)
                  :: [then_reaction (External b) key (S (S (next w)));
                      catch_reaction key (S (S (next w)))]).
  { cbn [settle reactions]. rewrite E2. cbn [reactions].
    rewrite E1. cbn [reactions next]. now rewrite <- app_assoc. }
  assert (Hst : settled (settle a (Fulfilled val) (fst second))
                = settle_promise (External a) (Fulfilled val) (settled w)).
  { cbn [settle settled]. rewrite E2. cbn [settled]. now rewrite E1. }
  assert (Hunused : forall q, (next w <= q)%nat ->
            outcome_of (Chained q)
              (settled (settle a (Fulfilled val) (fst second))) = None).
  { intros q Hq. rewrite Hst, outcome_settle_other by discriminate.
    eapply outcome_unused; [apply Hwf|exact Hq]. }
  destruct (jobs_run (External a) key (next w) (Fulfilled val) t1 t2
              (reactions w)
              [then_reaction (External b) key (S (S (next w)));
               catch_reaction key (S (S (next w)))]
              (settle a (Fulfilled val) (fst second)) Hrs
              (old_targets w Hwf))
    as (Hc & _ & Hframe & _).
  - repeat constructor; simpl; lia.
  - rewrite Hst. now apply outcome_settle_new.
  - apply Hunused. lia.
  - apply Hunused. lia.
  - fold w' in Hc, Hframe.
    cbn [run_handler fst snd settlement_of on_fulfilled] in Hc.
    assert (G : JsMap.get key (cache w')
                = Some {| value := val; expiresAt := t1 + ttl cfg;
                          isError := None |})
      by (rewrite Hc; apply get_set_same).
    repeat split; try assumption.
    + rewrite E2. cbn [calls]. now rewrite E1.
    + rewrite Hframe.
      * apply Hunused. lia.
      * unfold newer. intros E. injection E. lia.
      * unfold newer. intros E. injection E. lia.
    + intros now2 now2' r2 Hle.
      now rewrite (memoized_hit cfg now2 now2' args key _ r2 w' Hk G Hle).
Qed.

End Overlap.

(** ** The default key generator *)

Section DefaultKey.

Variable JSON_stringify : list jsval -> completion string.
Variable String_ : jsval -> completion string.

Lemma map_String_app l1 l2 :
  map_String String_ (l1 ++ l2)
  = match map_String String_ l1 with
    | Throw e => Throw e
    | Normal s1 =>
        match map_String String_ l2 with
        | Throw e => Throw e
        | Normal s2 => Normal (s1 ++ s2)
        end
    end.
Proof.
  induction l1 as [|a l1 IH]; cbn [map_String app].
  - now destruct (map_String String_ l2).
  - destruct (String_ a) as [s|e]; [|reflexivity]. rewrite IH.
    destruct (map_String String_ l1) as [s1|e]; [|reflexivity].
    now destruct (map_String String_ l2).
Qed.

Lemma map_String_throws args e :
  map_String String_ args = Throw e ->
  exists a, In a args /\ String_ a = Throw e.
Proof.
  induction args as [|a args IH]; cbn [map_String]; [discriminate|].
  destruct (String_ a) as [s|e'] eqn:Ea.
  - destruct (map_String String_ args) as [ss|e'']; [discriminate|].
    intros H. injection H as ->.
    destruct (IH eq_refl) as (x & Hin & Hx). exists x. simpl. tauto.
  - intros H. injection H as ->. exists a. simpl. tauto.
Qed.

Lemma concat_bar_split (ss : list string) (a b : string) :
  String.concat "|" (ss ++ [(a ++ "|" ++ b)%string])
  = String.concat "|" (ss ++ [a; b]).
Proof.
  induction ss as [|x ss IH]; [reflexivity|].
  destruct ss as [|y ss]; [reflexivity|].
  cbn [app String.concat] in *. now rewrite IH.
Qed.

(** X12.  The default key generator returns what [JSON.stringify]
    returns when that does not throw; an exception of [JSON.stringify]
    is never what it throws: when it throws, [JSON.stringify] has
    thrown and [String] has thrown that exception on one of the
    arguments; so it returns a key whenever [String] returns on every
    argument. *)
Theorem defaultKeyGen_outcomes args :
  (forall s, JSON_stringify args = Normal s ->
     defaultKeyGen JSON_stringify String_ args = Normal s) /\
  (forall e, defaultKeyGen JSON_stringify String_ args = Throw e ->
     (exists e', JSON_stringify args = Throw e') /\
     exists a, In a args /\ String_ a = Throw e) /\
  ((forall a, In a args -> exists s, String_ a = Normal s) ->
     exists k, defaultKeyGen JSON_stringify String_ args = Normal k).
Proof.
  unfold defaultKeyGen. split; [|split].
  - intros s H. now rewrite H.
  - intros e. destruct (JSON_stringify args) as [s|e']; [discriminate|].
    destruct (map_String String_ args) as [ss|e''] eqn:M; [discriminate|].
    intros H. injection H as ->. split; [now exists e'|].
    now apply map_String_throws.
  - intros Hall. destruct (JSON_stringify args) as [s|e']; [now exists s|].
    destruct (map_String String_ args) as [ss|e''] eqn:M; [now eexists|].
    destruct (map_String_throws args e'' M) as (a & Hin & Ha).
    destruct (Hall a Hin) as [s Hs]. congruence.
Qed.

(** X14.  The fallback key does not tell apart a string argument that
    contains the delimiter from two string arguments: when
    [JSON.stringify] throws on both lists (because of the arguments
    before) and [String] converts a string to itself, the two lists
    have one key; with the default key generator a call with the second
    list, up to [ttl] after a call with the first has stored its
    result, is given that result and the underlying function is not
    invoked with the second list. *)
Theorem fallback_key_collides cfg pre a b e1 e2 now1 now1' now2 now2' v r2 w :
  keyGenerator cfg = defaultKeyGen JSON_stringify String_ ->
  JSON_stringify (pre ++ [JStr (a ++ "|" ++ b)]) = Throw e1 ->
  JSON_stringify (pre ++ [JStr a; JStr b]) = Throw e2 ->
  (forall s, String_ (JStr s) = Normal s) ->
  let one := pre ++ [JStr (a ++ "|" ++ b)] in
  let two := pre ++ [JStr a; JStr b] in
  keyGenerator cfg one = keyGenerator cfg two /\
  (forall key,
     keyGenerator cfg one = Normal key ->
     live now1 key (cache w) = false ->
     instanceof_Promise v = None ->
     now2 <= now1' + ttl cfg ->
     let first := memoized cfg now1 now1' one (Normal v) w in
     memoized cfg now2 now2' two r2 (fst first) = (fst first, Normal v) /\
     calls (fst first) = one :: calls w).
Proof.
  intros Hg H1 H2 HS one two.
  assert (Heq : keyGenerator cfg one = keyGenerator cfg two).
  { rewrite Hg. unfold defaultKeyGen, one, two. rewrite H1, H2.
    rewrite !map_String_app.
    destruct (map_String String_ pre) as [ss|e]; [|reflexivity].
    cbn [map_String]. rewrite !HS. now rewrite concat_bar_split. }
  split; [exact Heq|].
  intros key Hk Hl Hv Hle first.
  assert (E1 : first = invoke cfg now1' one key (Normal v)
                 (with_cache (JsMap.delete key (cache w)) w))
    by (apply memoized_miss; assumption).
  set (w0 := with_cache (JsMap.delete key (cache w)) w) in *.
  pose proof (invoke_entry cfg now1' one key v w0) as He.
  rewrite <- E1 in He. unfold handed_back in He. rewrite Hv in He.
  rewrite Heq in Hk. split.
  - now rewrite (memoized_hit cfg now2 now2' two key _ r2 (fst first) Hk He).
  - rewrite E1, invoke_calls. reflexivity.
Qed.

End DefaultKey.

(** * The further properties on concrete runs *)

Lemma serving_does_not_extend_expiry_witness :
  calls (fst (memoized (demo false) 101 101 [JStr "a"] (Normal (JNum 9))
                (fst (call_all (demo false) [JStr "a"]
                        [(50, 50, Normal JNull); (100, 100, Normal JNull)]
                        two_entries))))
  = [JStr "a"] :: calls two_entries.
Proof.
  assert (Hj : Forall (fun c : Z * Z * completion jsval => fst (fst c) <= 100)
                 [(50, 50, Normal JNull); (100, 100, Normal JNull)])
    by (repeat constructor; simpl; lia).
  assert (Hlt : 100 < 101) by lia.
  apply (serving_does_not_extend_expiry (demo false) [JStr "a"] "a"
           {| value := JNum 1; expiresAt := 100; isError := None |}
           [(50, 50, Normal JNull); (100, 100, Normal JNull)]
           101 101 (Normal (JNum 9)) two_entries eq_refl eq_refl Hj Hlt).
Defined.

Lemma failing_call_leaves_no_entry_witness :
  JsMap.get "a"
    (cache (fst (memoized (demo false) 101 101 [JStr "a"] (Throw boom)
                   two_entries)))
  = None.
Proof.
  apply (failing_call_leaves_no_entry (demo false) 101 101 [JStr "a"] "a"
           boom two_entries eq_refl eq_refl eq_refl).
Defined.

Lemma settled_value_is_served_bare_witness :
  let w4 := async_round (demo false) 0 0 [JStr "a"] 0 (Fulfilled (JNum 5))
              70 70 fresh_world in
  memoized (demo false) 170 170 [JStr "a"] (Normal JNull) w4
  = (w4, Normal (JNum 5)).
Proof.
  assert (Hwf : well_formed fresh_world) by (split; constructor).
  apply (settled_value_is_served_bare (demo false) 0 0 [JStr "a"] "a" 0
           (JNum 5) 70 70 fresh_world Hwf eq_refl eq_refl eq_refl
           170 170 (Normal JNull)).
  simpl. lia.
Defined.

Lemma negative_ttl_serves_no_result_witness :
  calls (fst (memoized hasty 0 0 [JStr "a"] (Normal (JNum 2))
                (fst (memoized hasty 0 0 [JStr "a"] (Normal (JNum 1))
                        fresh_world))))
  = [[JStr "a"]; [JStr "a"]].
Proof.
  assert (Hneg : ttl hasty < 0) by (simpl; lia).
  assert (Hwf : well_formed fresh_world) by (split; constructor).
  assert (Hle : 0 <= 0) by lia.
  apply (proj1 (negative_ttl_serves_no_result hasty 0 0 0 0 [JStr "a"] "a"
                  (JNum 1) 0 JNull 0 0 (Normal (JNum 2)) fresh_world
                  Hneg Hwf eq_refl eq_refl eq_refl) Hle).
Defined.

Lemma clear_forces_recomputation_witness :
  calls (fst (memoized (demo false) 0 0 [JStr "b"] (Normal JNull)
                (fst (clear (demo false) None two_entries))))
  = [JStr "b"] :: calls two_entries /\
  calls (fst (memoized (demo false) 0 0 [JStr "a"] (Normal JNull)
                (fst (clear (demo false) (Some [JStr "a"]) two_entries))))
  = [JStr "a"] :: calls two_entries.
Proof.
  destruct (clear_forces_recomputation (demo false) [JStr "a"] "a"
              two_entries eq_refl) as (Hall & Hone & _).
  split.
  - exact (Hall [JStr "b"] "b"%string 0 0 (Normal JNull) eq_refl).
  - exact (Hone 0 0 (Normal JNull)).
Defined.

Lemma clear_does_not_cancel_witness :
  let first := memoized (demo false) 0 0 [JStr "a"]
                 (Normal (JPromise (External 0))) fresh_world in
  let cleared := fst (clear (demo false) None (fst first)) in
  stats cleared = (0%nat, []) /\
  JsMap.get "a"
    (cache (react (demo false) 1 70
              (react (demo false) 0 70
                 (settle 0 (Fulfilled (JNum 5)) cleared))))
  = Some {| value := JNum 5; expiresAt := 70 + 100; isError := None |}.
Proof.
  assert (Hwf : well_formed fresh_world) by (split; constructor).
  destruct (clear_does_not_cancel (demo false) 0 0 [JStr "a"] "a" 0
              (Fulfilled (JNum 5)) 70 70 None fresh_world
              Hwf eq_refl eq_refl eq_refl (or_introl eq_refl))
    as (_ & _ & Hback).
  split; [reflexivity|exact Hback].
Defined.

Lemma stale_settlement_overwrites_witness :
  let first := memoized (demo false) 0 0 [JStr "a"]
                 (Normal (JPromise (External 0))) fresh_world in
  let second := memoized (demo false) 150 150 [JStr "a"]
                  (Normal (JPromise (External 1))) (fst first) in
  let w' := react (demo false) 1 200
              (react (demo false) 0 200
                 (settle 0 (Fulfilled (JNum 5)) (fst second))) in
  snd second = Normal (JPromise (Chained 3)) /\
  outcome_of (Chained 3) (settled w') = None /\
  memoized (demo false) 210 210 [JStr "a"] (Normal JNull) w'
  = (w', Normal (JNum 5)).
Proof.
  assert (Hwf : well_formed fresh_world) by (split; constructor).
  assert (Hexp : 0 + ttl (demo false) < 150) by (simpl; lia).
  destruct (stale_settlement_overwrites (demo false) 0 0 150 150 [JStr "a"]
              "a" 0 1 (JNum 5) 200 200 fresh_world
              Hwf eq_refl eq_refl eq_refl Hexp)
    as (Hh & _ & _ & _ & Hpending & Hserved).
  split; [exact Hh|]. split; [exact Hpending|].
  apply (Hserved 210 210 (Normal JNull)). simpl. lia.
Defined.

Lemma distinct_keys_accumulate_witness :
  stats (fst (call_each (demo false)
                [(0, 0, [JStr "a"], Normal (JNum 1));
                 (0, 0, [JStr "b"], Normal (JNum 2));
                 (5, 5, [JStr "c"], Normal (JPromise (External 0)))]
                fresh_world))
  = (3%nat, ["a"; "b"; "c"]%string).
Proof.
  assert (Hr : Forall (fun c : Z * Z * list jsval * completion jsval =>
                         exists v, snd c = Normal v)
                 [(0, 0, [JStr "a"], Normal (JNum 1));
                  (0, 0, [JStr "b"], Normal (JNum 2));
                  (5, 5, [JStr "c"], Normal (JPromise (External 0)))])
    by (repeat constructor; eexists; reflexivity).
  assert (Hnd : NoDup ["a"; "b"; "c"]%string)
    by (repeat constructor; simpl; intuition discriminate).
  assert (Habs : Forall (fun k => JsMap.get k (cache fresh_world) = None)
                   ["a"; "b"; "c"]%string)
    by (repeat constructor).
  apply (distinct_keys_accumulate (demo false)
           [(0, 0, [JStr "a"], Normal (JNum 1));
            (0, 0, [JStr "b"], Normal (JNum 2));
            (5, 5, [JStr "c"], Normal (JPromise (External 0)))]
           ["a"; "b"; "c"]%string fresh_world eq_refl Hr Hnd Habs).
Defined.

Lemma recomputed_key_moves_to_end_witness :
  snd (stats (fst (memoized (demo false) 101 101 [JStr "a"] (Normal (JNum 9))
                     two_entries)))
  = ["b"; "a"]%string.
Proof.
  assert (Hlt : 100 < 101) by lia.
  apply (recomputed_key_moves_to_end (demo false) 101 101 [JStr "a"] "a"
           {| value := JNum 1; expiresAt := 100; isError := None |}
           (JNum 9) two_entries eq_refl eq_refl Hlt).
Defined.

Lemma settlement_keeps_key_order_witness :
  snd (stats (async_round (demo true) 0 0 [JStr "a"] 0 (Rejected boom)
                10 10 fresh_world))
  = ["a"]%string.
Proof.
  assert (Hwf : well_formed fresh_world) by (split; constructor).
  apply (settlement_keeps_key_order (demo true) 0 0 [JStr "a"] "a" 0
           (Rejected boom) 10 10 fresh_world Hwf eq_refl eq_refl eq_refl).
Defined.

Lemma keys_stay_distinct_witness :
  NoDup (snd (stats (fst (memoized (demo false) 101 101 [JStr "a"]
                            (Normal (JNum 9)) two_entries)))).
Proof.
  assert (Hnd : NoDup (snd (stats two_entries)))
    by (repeat constructor; simpl; intuition discriminate).
  apply (keys_stay_distinct (demo false) 101 101 [JStr "a"]
           (Normal (JNum 9)) 0%nat None 0%nat (Fulfilled JNull)
           two_entries Hnd).
Defined.

Lemma defaultKeyGen_outcomes_witness :
  exists k,
    defaultKeyGen sample_stringify sample_String [JObj 0; JStr "x"]
    = Normal k.
Proof.
  apply (defaultKeyGen_outcomes sample_stringify sample_String
           [JObj 0; JStr "x"]).
  intros a Ha. destruct Ha as [<-|[<-|[]]]; eexists; reflexivity.
Defined.

Lemma errorTTL_unused_without_cacheErrors_witness :
  memoized (with_errorTTL 7 (demo false)) 0 0 [JStr "a"] (Throw boom)
    fresh_world
  = memoized (demo false) 0 0 [JStr "a"] (Throw boom) fresh_world.
Proof.
  apply (errorTTL_unused_without_cacheErrors (demo false) 7 0 0 [JStr "a"]
           (Throw boom) 0%nat fresh_world eq_refl).
Defined.

Lemma fallback_key_collides_witness :
  let cfg := fst (memoize sample_stringify sample_String
                    {| opt_ttl := None; opt_keyGenerator := None;
                       opt_cacheErrors := None; opt_errorTTL := None |}) in
  keyGenerator cfg [JObj 0; JStr "x|y"] = keyGenerator cfg [JObj 0; JStr "x"; JStr "y"].
Proof.
  apply (fallback_key_collides sample_stringify sample_String
           (fst (memoize sample_stringify sample_String
                   {| opt_ttl := None; opt_keyGenerator := None;
                      opt_cacheErrors := None; opt_errorTTL := None |}))
           [JObj 0] "x" "y"
           (JStr "TypeError: cyclic object value")
           (JStr "TypeError: cyclic object value")
           0 0 0 0 JNull (Normal JNull) fresh_world
           eq_refl eq_refl eq_refl (fun s => eq_refl)).
Defined.

(** * Calls among other operations *)

Section Interleaving.

Variable cfg : Settings.
Implicit Types (w : World) (args : list jsval) (key : string).

Lemma under_key key args :
  under cfg key args = true -> keyGenerator cfg args = Normal key.
Proof.
  unfold under. destruct (keyGenerator cfg args) as [k|e]; [|discriminate].
  intros H. apply String.eqb_eq in H. now subst.
Qed.

Lemma under_other key key' args :
  under cfg key args = false -> keyGenerator cfg args = Normal key' ->
  key' <> key.
Proof.
  unfold under. intros H Hk. rewrite Hk in H. now apply String.eqb_neq.
Qed.

Lemma under_same key args :
  keyGenerator cfg args = Normal key -> under cfg key args = true.
Proof. unfold under. intros ->. apply String.eqb_refl. Qed.

Lemma run_handler_other_key now h o c key :
  handler_key h <> key ->
  JsMap.get key (fst (run_handler cfg now h o c)) = JsMap.get key c.
Proof.
  intros Hne. unfold run_handler, on_fulfilled, on_rejected.
  destruct h as [k|k], o as [v|e]; cbn [fst handler_key] in *;
    try reflexivity.
  - now apply get_set_other.
  - destruct (cacheErrors cfg);
      [now apply get_set_other|now apply get_delete_other].
Qed.

(** A job either does nothing, or it is the job of a registered
    reaction whose source has settled. *)
Lemma react_cases q now w :
  react cfg q now w = w \/
  exists rx o,
    find (fun rx' => Nat.eqb (target rx') q) (reactions w) = Some rx /\
    outcome_of (source rx) (settled w) = Some o /\
    react cfg q now w
    = {| cache := fst (run_handler cfg now (job rx) o (cache w));
         settled := settle_promise (Chained q)
                      (settlement_of
                         (snd (run_handler cfg now (job rx) o (cache w))))
                      (settled w);
         reactions := filter (fun rx' => negb (Nat.eqb (target rx') q))
                        (reactions w);
         next := next w; calls := calls w |}.
Proof.
  destruct (find (fun rx' => Nat.eqb (target rx') q) (reactions w))
    as [rx|] eqn:F.
  - destruct (outcome_of (source rx) (settled w)) as [o|] eqn:O.
    + right. exists rx, o. repeat split; try assumption.
      now apply react_runs.
    + left. unfold react. now rewrite F, O.
  - left. unfold react. now rewrite F.
Qed.

(** What a call can do to the promises: nothing, or register the two
    reactions of a new computation. *)
Lemma memoized_frame now now' args r w :
  settled (fst (memoized cfg now now' args r w)) = settled w /\
  ((reactions (fst (memoized cfg now now' args r w)) = reactions w /\
    next (fst (memoized cfg now now' args r w)) = next w) \/
   exists p key',
     reactions (fst (memoized cfg now now' args r w))
     = reactions w
       ++ [then_reaction p key' (next w); catch_reaction key' (next w)] /\
     next (fst (memoized cfg now now' args r w)) = S (S (next w))).
Proof.
  assert (Hi : forall key w0,
            settled (fst (invoke cfg now' args key r w0)) = settled w0 /\
            ((reactions (fst (invoke cfg now' args key r w0)) = reactions w0 /\
              next (fst (invoke cfg now' args key r w0)) = next w0) \/
             exists p key',
               reactions (fst (invoke cfg now' args key r w0))
               = reactions w0
                 ++ [then_reaction p key' (next w0);
                     catch_reaction key' (next w0)] /\
               next (fst (invoke cfg now' args key r w0))
               = S (S (next w0)))).
  { intros key w0. unfold invoke. destruct r as [v|e].
    - destruct (instanceof_Promise v) as [p|]; cbn [fst settled reactions next].
      + split; [reflexivity|]. right. exists p, key. now split.
      + split; [reflexivity|]. left. now split.
    - cbn [fst settled reactions next]. split; [reflexivity|]. left. now split. }
  unfold memoized. destruct (keyGenerator cfg args) as [key|e].
  - destruct (JsMap.get key (cache w)) as [entry|]; [|apply Hi].
    unfold purgeIfExpired. destruct (now >? expiresAt entry).
    + apply (Hi key (with_cache (JsMap.delete key (cache w)) w)).
    + destruct (flag_set (isError entry)); cbn [fst];
        (split; [reflexivity|left; now split]).
  - cbn [fst]. split; [reflexivity|left; now split].
Qed.

(** An event that leaves the entry of [key] in place: the entry is what
    it was, and the underlying function has not been invoked with
    arguments under [key]. *)
Lemma step_keeps_entry key entry ev w :
  JsMap.get key (cache w) = Some entry ->
  leaves cfg key (expiresAt entry) ev w = true ->
  JsMap.get key (cache (step cfg ev w)) = Some entry /\
  filter (under cfg key) (calls (step cfg ev w))
  = filter (under cfg key) (calls w).
Proof.
  intros G Hl. destruct ev as [now now' args r|n o|q now|k];
    cbn [step leaves] in *.
  - destruct (under cfg key args) eqn:U.
    + apply Z.leb_le in Hl.
      rewrite (memoized_hit cfg now now' args key entry r w
                 (under_key key args U) G Hl).
      now split.
    + destruct (keyGenerator cfg args) as [key'|e] eqn:Hk.
      * split.
        -- rewrite (memoized_other_key cfg now now' args key key' r w Hk
                      (under_other key key' args U Hk)).
           exact G.
        -- destruct (memoized_calls cfg now now' args r w) as [E|E];
             rewrite E; [reflexivity|].
           cbn [filter]. now rewrite U.
      * unfold memoized. rewrite Hk. now split.
  - now split.
  - destruct (react_cases q now w) as [E|(rx & o & F & O & E)];
      rewrite E; [now split|].
    rewrite F, O in Hl. cbn [cache calls]. split; [|reflexivity].
    rewrite run_handler_other_key; [exact G|].
    apply negb_true_iff in Hl. now apply String.eqb_neq.
  - destruct k as [args|]; [|discriminate].
    apply negb_true_iff in Hl. unfold clear.
    destruct (keyGenerator cfg args) as [key'|e] eqn:Hk; [|now split].
    cbn [fst cache calls with_cache]. split; [|reflexivity].
    rewrite get_delete_other; [exact G|].
    exact (under_other key key' args Hl Hk).
Qed.

Lemma run_keeps_entry key entry evs w :
  JsMap.get key (cache w) = Some entry ->
  undisturbed cfg key (expiresAt entry) evs w = true ->
  JsMap.get key (cache (run cfg evs w)) = Some entry /\
  filter (under cfg key) (calls (run cfg evs w))
  = filter (under cfg key) (calls w) /\
  Forall (eq (served entry)) (answers cfg key evs w).
Proof.
  revert w. induction evs as [|ev evs IH]; intros w G Hu.
  - cbn [run answers]. split; [exact G|]. split; [reflexivity|constructor].
  - cbn [undisturbed] in Hu. apply andb_true_iff in Hu. destruct Hu as [Hl Hu].
    destruct (step_keeps_entry key entry ev w G Hl) as [G1 Hc1].
    destruct (IH (step cfg ev w) G1 Hu) as (G2 & Hc2 & Ha).
    cbn [run]. split; [exact G2|]. split; [now rewrite Hc2|].
    cbn [answers]. destruct ev as [now now' args r|n o|q now|k]; try exact Ha.
    destruct (under cfg key args) eqn:U; [|exact Ha].
    constructor; [|exact Ha].
    cbn [leaves] in Hl. rewrite U in Hl. apply Z.leb_le in Hl.
    now rewrite (memoized_hit cfg now now' args key entry r w
                   (under_key key args U) G Hl).
Qed.

Lemma Forall_filter_keeps {A : Type} (P : A -> Prop) (f : A -> bool) l :
  Forall P l -> Forall P (filter f l).
Proof.
  intros H. apply Forall_forall. intros x Hin. apply filter_In in Hin.
  exact (proj1 (Forall_forall P l) H x (proj1 Hin)).
Qed.

(** While the reactions of a computation are registered, a job that is
    not one of its own is the job of another target. *)
Lemma other_job p key q t rs rs' rx :
  Forall (fun rx' => (target rx' < q)%nat) rs ->
  find (fun rx' => Nat.eqb (target rx') t)
    (rs ++ then_reaction p key q :: catch_reaction key q :: rs') = Some rx ->
  handler_key (job rx) <> key ->
  t <> q /\ t <> S q.
Proof.
  intros Hrs F Hne.
  assert (Hskip : forall t', (q <= t')%nat ->
            Forall (fun rx' => Nat.eqb (target rx') t' = false) rs).
  { intros t' Ht. eapply Forall_impl; [|exact Hrs].
    intros rx' H. simpl in H. apply Nat.eqb_neq. lia. }
  split; intros ->.
  - rewrite (find_app_skip _ _ _ (Hskip q (Nat.le_refl _))) in F.
    cbn [find target then_reaction] in F. rewrite Nat.eqb_refl in F.
    injection F as <-. now apply Hne.
  - rewrite (find_app_skip _ _ _ (Hskip (S q) (Nat.le_succ_diag_r _))) in F.
    cbn [find target then_reaction catch_reaction] in F.
    replace (Nat.eqb q (S q)) with false in F
      by (symmetry; apply Nat.eqb_neq; lia).
    rewrite Nat.eqb_refl in F. injection F as <-. now apply Hne.
Qed.

Lemma step_keeps_awaiting p key q exp ev w :
  awaiting p key q w ->
  leaves cfg key exp ev w = true ->
  awaiting p key q (step cfg ev w).
Proof.
  intros ((rs & rs' & Hr & Hrs & Hrs') & Hq & Hsq & Hn) Hl.
  destruct ev as [now now' args r|n o|t now|k]; cbn [step leaves] in *.
  - destruct (memoized_frame now now' args r w)
      as [Hs [[Er En]|(p' & key' & Er & En)]].
    + unfold awaiting. rewrite Hs, Er, En.
      split; [now exists rs, rs'|]. now repeat split.
    + unfold awaiting. rewrite Hs, Er, En. split.
      * exists rs,
          (rs' ++ [then_reaction p' key' (next w);
                   catch_reaction key' (next w)]).
        split; [rewrite Hr, <- app_assoc; reflexivity|].
        split; [exact Hrs|].
        apply Forall_app. split; [exact Hrs'|].
        repeat constructor; simpl; lia.
      * repeat split; try assumption. lia.
  - unfold awaiting, settle. cbn [settled reactions next].
    split; [now exists rs, rs'|].
    rewrite !outcome_settle_other by discriminate. now repeat split.
  - destruct (react_cases t now w) as [E|(rx & o & F & O & E)];
      rewrite E;
      [split; [now exists rs, rs'|now repeat split]|].
    rewrite F, O in Hl. apply negb_true_iff, String.eqb_neq in Hl.
    rewrite Hr in F.
    destruct (other_job p key q t rs rs' rx Hrs F Hl) as [Ht Hst].
    unfold awaiting. cbn [settled reactions next]. split.
    + exists (filter (fun rx' => negb (Nat.eqb (target rx') t)) rs),
        (filter (fun rx' => negb (Nat.eqb (target rx') t)) rs').
      split.
      * rewrite Hr, filter_app.
        cbn [filter target then_reaction catch_reaction].
        replace (Nat.eqb q t) with false
          by (symmetry; apply Nat.eqb_neq; congruence).
        replace (Nat.eqb (S q) t) with false
          by (symmetry; apply Nat.eqb_neq; congruence).
        reflexivity.
      * split; now apply Forall_filter_keeps.
    + rewrite !outcome_settle_other by congruence. now repeat split.
  - unfold clear. destruct k as [args|].
    + destruct (keyGenerator cfg args);
        (split; [now exists rs, rs'|now repeat split]).
    + discriminate.
Qed.

Lemma run_keeps_awaiting p key q exp evs w :
  awaiting p key q w ->
  undisturbed cfg key exp evs w = true ->
  awaiting p key q (run cfg evs w).
Proof.
  revert w. induction evs as [|ev evs IH]; intros w Ha Hu; [exact Ha|].
  cbn [undisturbed] in Hu. apply andb_true_iff in Hu. destruct Hu as [Hl Hu].
  cbn [run]. apply IH; [|exact Hu].
  now apply (step_keeps_awaiting p key q exp ev w).
Qed.

(** Once the promise has settled, the two jobs of a computation that is
    still awaited settle its handle the same way. *)
Lemma awaiting_settles p key q o t1 t2 w :
  awaiting p key q w ->
  outcome_of p (settled w) = Some o ->
  outcome_of (Chained (S q))
    (settled (react cfg (S q) t2 (react cfg q t1 w))) = Some o.
Proof.
  intros ((rs & rs' & Hr & Hrs & Hrs') & Hq & Hsq & _) Hp.
  apply (jobs_run cfg p key q o t1 t2 rs rs' w Hr); try assumption.
  - eapply Forall_impl; [|exact Hrs]. simpl. intros; lia.
  - eapply Forall_impl; [|exact Hrs']. simpl. intros; lia.
Qed.

(** The world that a call leaves when it has started a computation
    awaits it. *)
Lemma awaiting_started now now' args key p w :
  well_formed w ->
  keyGenerator cfg args = Normal key ->
  live now key (cache w) = false ->
  awaiting p key (next w)
    (fst (memoized cfg now now' args (Normal (JPromise p)) w)).
Proof.
  intros Hwf Hk Hl.
  rewrite (async_call_world cfg now now' args key p w Hk Hl).
  unfold awaiting. cbn [reactions settled next]. split.
  - exists (reactions w), []. split; [reflexivity|].
    split; [apply Hwf|constructor].
  - split; [eapply outcome_unused; [apply Hwf|lia]|].
    split; [eapply outcome_unused; [apply Hwf|lia]|lia].
Qed.

End Interleaving.

Section SharedEntry.

Variable cfg : Settings.
Implicit Types (w : World) (args : list jsval) (key : string).

(** C1, as amended.  A call that misses and is given a promise installs
    a pending handle under its key, with [expiresAt = now' + ttl].  Let
    any operations follow, in any order, that leave that entry in place:
    calls under the key at a clock no later than that [expiresAt]; calls
    under other keys; settlements of promises; jobs of reactions whose
    callback closes over another key, or whose source is still pending;
    [clear] of an argument list under another key.  (Left out are a call
    under the key after [expiresAt], [clear()], [clear] of an argument
    list under the key, and the job of a [then] or [catch] reaction for
    the key whose source has settled, be it of this computation or of an
    earlier one.)  Then every call under the key among them was
    handed that same handle; the underlying function was invoked once
    with arguments under the key, by the installing call; the handle is
    still in the cache and still pending; and once the promise has
    settled and the two jobs of the computation run, the handle is
    settled with the same value or failure. *)
Theorem shared_pending_handle now now' args key p evs w :
  well_formed w ->
  keyGenerator cfg args = Normal key ->
  live now key (cache w) = false ->
  let first := memoized cfg now now' args (Normal (JPromise p)) w in
  let q := Chained (S (next w)) in
  undisturbed cfg key (now' + ttl cfg) evs (fst first) = true ->
  let w' := run cfg evs (fst first) in
  snd first = Normal (JPromise q) /\
  Forall (eq (Normal (JPromise q))) (answers cfg key evs (fst first)) /\
  filter (under cfg key) (calls w')
  = args :: filter (under cfg key) (calls w) /\
  JsMap.get key (cache w')
  = Some {| value := JPromise q; expiresAt := now' + ttl cfg;
            isError := None |} /\
  outcome_of q (settled w') = None /\
  (forall o t1 t2,
     outcome_of p (settled w') = Some o ->
     outcome_of q
       (settled (react cfg (S (next w)) t2 (react cfg (next w) t1 w')))
     = Some o).
Proof.
  intros Hwf Hk Hl first q Hu w'.
  destruct (first_async_call cfg now now' args key p w Hk Hl)
    as (Hr & He & Hc & _).
  fold first in Hr, He, Hc.
  set (entry := {| value := JPromise q; expiresAt := now' + ttl cfg;
                   isError := None |}) in *.
  destruct (run_keeps_entry cfg key entry evs (fst first) He Hu)
    as (G & Hcalls & Hans).
  fold w' in G, Hcalls.
  pose proof (run_keeps_awaiting cfg p key (next w) _ evs (fst first)
                (awaiting_started cfg now now' args key p w Hwf Hk Hl) Hu)
    as Ha.
  fold w' in Ha.
  split; [exact Hr|]. split; [exact Hans|]. split.
  { rewrite Hcalls, Hc. cbn [filter]. now rewrite (under_same cfg key args Hk). }
  split; [exact G|]. split.
  { apply Ha. }
  intros o t1 t2 Ho.
  now apply (awaiting_settles cfg p key (next w) o t1 t2 w' Ha).
Qed.


End SharedEntry.

Lemma shared_pending_handle_witness :
  let first := memoized (demo false) 0 0 [JStr "a"]
                 (Normal (JPromise (External 0))) fresh_world in
  let evs := [ECall 10 10 [JStr "b"] (Normal (JNum 2));
              ECall 50 50 [JStr "a"] (Normal JNull);
              ESettle 0 (Fulfilled (JNum 5));
              ECall 100 100 [JStr "a"] (Throw boom);
              EClear (Some [JStr "b"])] in
  Forall (eq (Normal (JPromise (Chained 1))))
    (answers (demo false) "a" evs (fst first)) /\
  outcome_of (Chained 1)
    (settled (react (demo false) 1 120
                (react (demo false) 0 120 (run (demo false) evs (fst first)))))
  = Some (Fulfilled (JNum 5)).
Proof.
  assert (Hwf : well_formed fresh_world) by (split; constructor).
  destruct (shared_pending_handle (demo false) 0 0 [JStr "a"] "a"
              (External 0)
              [ECall 10 10 [JStr "b"] (Normal (JNum 2));
               ECall 50 50 [JStr "a"] (Normal JNull);
               ESettle 0 (Fulfilled (JNum 5));
               ECall 100 100 [JStr "a"] (Throw boom);
               EClear (Some [JStr "b"])]
              fresh_world Hwf eq_refl eq_refl eq_refl)
    as (_ & Hans & _ & _ & _ & Hsettles).
  split; [exact Hans|].
  exact (Hsettles (Fulfilled (JNum 5)) 120 120 eq_refl).
Defined.



(** C1, as stated, fails, in each of these runs with [ttl] 100.  (1) The
    pending handle installed at clock 0 has [expiresAt] 100; at clock
    150 neither the underlying promise nor the handle has settled, yet
    the call purges the entry, invokes the underlying function a second
    time and is handed another handle.  (2) That second computation has
    installed handle 3 with [expiresAt] 250; at clock 200 the promise of
    the first computation is rejected and its [catch] job deletes the
    key; at clock 210, handle 3 still pending, a call invokes the
    underlying function a third time and is handed handle 5.  (3) After
    [clear()] at any clock the next call invokes again and is handed
    another handle while the first is pending. *)
Lemma pending_handle_not_shared :
  (let first := memoized (demo false) 0 0 [JStr "a"]
                  (Normal (JPromise (External 0))) fresh_world in
   let second := memoized (demo false) 150 150 [JStr "a"]
                   (Normal (JPromise (External 1))) (fst first) in
   snd first = Normal (JPromise (Chained 1)) /\
   JsMap.get "a" (cache (fst first))
   = Some {| value := JPromise (Chained 1); expiresAt := 100;
             isError := None |} /\
   outcome_of (External 0) (settled (fst first)) = None /\
   outcome_of (Chained 1) (settled (fst first)) = None /\
   snd second = Normal (JPromise (Chained 3)) /\
   calls (fst second) = [[JStr "a"]; [JStr "a"]]) /\
  (let first := memoized (demo false) 0 0 [JStr "a"]
                  (Normal (JPromise (External 0))) fresh_world in
   let second := memoized (demo false) 150 150 [JStr "a"]
                   (Normal (JPromise (External 1))) (fst first) in
   let between := run (demo false)
                    [ESettle 0 (Rejected boom); EReact 0 200; EReact 1 200]
                    (fst second) in
   let third := memoized (demo false) 210 210 [JStr "a"]
                  (Normal (JPromise (External 2))) between in
   snd second = Normal (JPromise (Chained 3)) /\
   JsMap.get "a" (cache (fst second))
   = Some {| value := JPromise (Chained 3); expiresAt := 250;
             isError := None |} /\
   outcome_of (External 1) (settled between) = None /\
   outcome_of (Chained 3) (settled between) = None /\
   snd third = Normal (JPromise (Chained 5)) /\
   calls (fst third) = [[JStr "a"]; [JStr "a"]; [JStr "a"]]) /\
  (let first := memoized (demo false) 0 0 [JStr "a"]
                  (Normal (JPromise (External 0))) fresh_world in
   let between := run (demo false) [EClear None] (fst first) in
   let second := memoized (demo false) 10 10 [JStr "a"]
                   (Normal (JPromise (External 1))) between in
   outcome_of (Chained 1) (settled between) = None /\
   snd second = Normal (JPromise (Chained 3)) /\
   calls (fst second) = [[JStr "a"]; [JStr "a"]]).
Proof. cbv zeta. repeat split. Defined.
